(** * A 2D computational-geometry kernel (geometry.py) and the list
      utilities (list.py), embedded in Rocq

    The geometry module represents a point by a [complex] number and works in
    double-precision floating point.  The embedding below follows the source
    function by function under the following conventions.

    - A Python [float] is a real number ([R] of the Standard Library):
      rounding, overflow, NaN and signed zeros are outside the model.  The
      properties below are therefore the ones that do not rest on exact
      arithmetic: which branch a function takes on the quantities it
      computes, what it raises, and symmetries that binary64 keeps (products
      commute, [x - y] is the opposite of [y - x]).  The literal [INF] is the
      extra constructor of [efloat]; a quotient that overflows to infinity is
      not represented.
    - Python's exceptions are values: a function that can raise returns
      [result A], either [Ok a] or [Raise e].  Float division [x / y] raises
      [ZeroDivisionError] exactly when [y == 0]; calling a method on [None]
      raises [AttributeError].
    - Python's [None] for an absent point is [option]'s [None].
    - The five [Point.CCW_*] class constants are the integers the source
      gives them; a Python [set] of them is a [gset Z].
    - [math.fsum] returns the correctly rounded sum, i.e. the sum itself in
      the real model.  *)

From Stdlib Require Import Reals Lra Lia ZArith List Bool.
From stdpp Require Import base decidable countable gmap sets sorting.
Import ListNotations.

#[local] Open Scope R_scope.

(** ** Numeric layer: float comparisons, division, modulo, exceptions *)

Inductive exn : Set :=
| ZeroDivisionError
| AttributeError.

Inductive result (A : Type) : Type :=
| Ok (a : A)
| Raise (e : exn).

Arguments Ok {A} a.
Arguments Raise {A} e.

Definition bind {A B : Type} (m : result A) (k : A -> result B) : result B :=
  match m with
  | Ok a => k a
  | Raise e => Raise e
  end.

Notation "'do' x <- m ; k" := (bind m (fun x => k))
  (at level 10, x name, m at level 100, k at level 200).

(** A float that may be the literal [INF]. *)
Inductive efloat : Set :=
| Fin (r : R)
| Inf.

Definition INF : efloat := Inf.
Definition TAU : R := PI * 2.
Definition EPS : R := / 100000000.

(** [x < y], [x > y] and [x == y] on floats, as booleans. *)
Definition Rltb (x y : R) : bool := if Rlt_dec x y then true else false.
Definition Rgtb (x y : R) : bool := Rltb y x.
Definition Reqb (x y : R) : bool := if Req_dec_T x y then true else false.

(** Float true division: raises on a zero divisor. *)
Definition fdiv (x y : R) : result R :=
  if Reqb y 0 then Raise ZeroDivisionError else Ok (x / y).

(** Float [x % y] for a non-zero [y]: Python's result is [x - floor(x/y)*y],
    which has the sign of the divisor.  Over the reals it lies in [0, y) for
    a positive [y]; in binary64 it can round up to [y] itself. *)
Definition fmod (x y : R) : R := x - IZR (Int_part (x / y)) * y.

(** [math.fsum] over a list. *)
Definition fsum (l : list R) : R := fold_right Rplus 0 l.

(** [math.atan2(y, x)], which [cmath.phase] is defined by. *)
Definition atan2 (y x : R) : R :=
  if Rltb 0 x then atan (y / x)
  else if Rltb x 0 then
    if Rltb y 0 then atan (y / x) - PI else atan (y / x) + PI
  else if Rltb 0 y then PI / 2
  else if Rltb y 0 then - (PI / 2)
  else 0.

(** ** Python's [complex] *)

Record complex : Set := Complex { real : R; imag : R }.

Definition cadd (z w : complex) : complex :=
  Complex (real z + real w) (imag z + imag w).
Definition csub (z w : complex) : complex :=
  Complex (real z - real w) (imag z - imag w).
Definition cneg (z : complex) : complex :=
  Complex (- real z) (- imag z).
(** [abs(z)] *)
Definition cabs (z : complex) : R :=
  sqrt (real z * real z + imag z * imag z).
(** [cmath.phase(z)] *)
Definition cphase (z : complex) : R := atan2 (imag z) (real z).
(** [cmath.rect(r, phi)] *)
Definition crect (r phi : R) : complex := Complex (r * cos phi) (r * sin phi).

(** ** Point *)

Module Point.

Record t : Set := Point { c : complex }.

Definition CCW_COUNTER_CLOCKWISE : Z := 1.
Definition CCW_CLOCKWISE : Z := -1.
Definition CCW_ONLINE_BACK : Z := 2.
Definition CCW_ONLINE_FRONT : Z := -2.
Definition CCW_ON_SEGMENT : Z := 0.

Definition x (p : t) : R := real (c p).
Definition y (p : t) : R := imag (c p).

Definition from_rect (x y : R) : t := Point (Complex x y).
Definition from_polar (r phi : R) : t := Point (crect r phi).

Definition add (p q : t) : t := Point (cadd (c p) (c q)).
Definition sub (p q : t) : t := Point (csub (c p) (c q)).
Definition neg (p : t) : t := Point (cneg (c p)).

(** [__eq__] *)
Definition eq (p q : t) : bool := Rltb (cabs (csub (c p) (c q))) EPS.
(** [__abs__] *)
Definition abs (p : t) : R := cabs (c p).

Definition dot (p q : t) : R := x p * x q + y p * y q.
Definition det (p q : t) : R := x p * y q - y p * x q.
Definition dist (p q : t) : R := cabs (csub (c p) (c q)).
Definition norm (p : t) : R := cabs (c p).
Definition phase (p : t) : R := cphase (c p).

Definition ccw (a b c : t) : Z :=
  let b := sub b a in
  let c := sub c a in
  let det := det b c in
  if Rgtb det EPS then CCW_COUNTER_CLOCKWISE
  else if Rltb det (- EPS) then CCW_CLOCKWISE
  else if Rltb (dot b c) (- EPS) then CCW_ONLINE_BACK
  else if Rgtb (norm c - norm b) EPS then CCW_ONLINE_FRONT
  else CCW_ON_SEGMENT.

Definition angle (self p q : t) : R :=
  fmod (cphase (csub (c q) (c self)) - cphase (csub (c p) (c self)) + PI) TAU
  - PI.

Definition on_segment (self p q : t) (allow_side : bool) : bool :=
  if negb allow_side && (eq self p || eq self q) then false
  else Rltb (Rabs (det (sub p self) (sub q self))) EPS
       && Rltb (dot (sub p self) (sub q self)) EPS.

Definition area (self p q : t) : R :=
  Rabs (det (sub p self) (sub q self) / 2).

Definition projection_point (self p q : t) (allow_outer : bool)
  : result (option t) :=
  let diff_q := sub q p in
  do r <- fdiv (dot (sub self p) diff_q) (abs diff_q);
  let phase := phase diff_q in
  let ret := add (from_polar r phase) p in
  if allow_outer || Rltb (dot (sub p ret) (sub q ret)) EPS then Ok (Some ret)
  else Ok None.

Definition reflection_point (self p q : t) : t :=
  let r := abs (sub self p) in
  let angle := angle p q self in
  let angle := phase (sub q p) - angle in
  add (from_polar r angle) p.

End Point.

(** ** Line: [a*x + b*y + c = 0] *)

Module Line.

Record t : Set := Line { a : R; b : R; c : R }.

Definition from_gradient (grad intercept : R) : t := Line grad (-1) intercept.

Definition from_segment (p1 p2 : Point.t) : t :=
  let a := Point.y p2 - Point.y p1 in
  let b := Point.x p1 - Point.x p2 in
  let c := Point.y p2 * (Point.x p2 - Point.x p1)
           - Point.x p2 * (Point.y p2 - Point.y p1) in
  Line a b c.

Definition gradient (self : t) : result efloat :=
  if Reqb (b self) 0 then Ok INF
  else do v <- fdiv (- a self) (b self); Ok (Fin v).

Definition intercept (self : t) : result efloat :=
  if Reqb (b self) 0 then Ok INF
  else do v <- fdiv (- c self) (b self); Ok (Fin v).

Definition is_parallel_to (self l : t) : bool :=
  Rltb (Rabs (Point.det (Point.from_rect (a self) (b self))
                        (Point.from_rect (a l) (b l)))) EPS.

Definition is_orthogonal_to (self l : t) : bool :=
  Rltb (Rabs (Point.dot (Point.from_rect (a self) (b self))
                        (Point.from_rect (a l) (b l)))) EPS.

Definition intersection_point (self l : t) : result (option Point.t) :=
  let '(a1, b1, c1) := (a self, b self, c self) in
  let '(a2, b2, c2) := (a l, b l, c l) in
  let det := a1 * b2 - a2 * b1 in
  if Rltb (Rabs det) EPS then Ok None
  else
    do x <- fdiv (b1 * c2 - b2 * c1) det;
    do y <- fdiv (a2 * c1 - a1 * c2) det;
    Ok (Some (Point.from_rect x y)).

End Line.

(** ** Segment *)

Module Segment.

Record t : Set := Segment { p1 : Point.t; p2 : Point.t }.

Definition norm (self : t) : R := Point.abs (Point.sub (p1 self) (p2 self)).

Definition intersects_with (self s : t) (allow_side : bool) : result bool :=
  let l1 := Line.from_segment (p1 self) (p2 self) in
  let l2 := Line.from_segment (p1 s) (p2 s) in
  if Line.is_parallel_to l1 l2 then
    Ok (Point.on_segment (p1 s) (p1 self) (p2 self) allow_side
        || Point.on_segment (p2 s) (p1 self) (p2 self) allow_side
        || Point.on_segment (p1 self) (p1 s) (p2 s) allow_side
        || Point.on_segment (p2 self) (p1 s) (p2 s) allow_side)
  else
    do p <- Line.intersection_point l1 l2;
    match p with
    | None => Raise AttributeError
    | Some p =>
        Ok (Point.on_segment p (p1 self) (p2 self) allow_side
            && Point.on_segment p (p1 s) (p2 s) allow_side)
    end.

Definition closest_point (self : t) (p : Point.t) : result Point.t :=
  do d <- fdiv (Point.dot (Point.sub p (p1 self))
                          (Point.sub (p2 self) (p1 self))) (norm self);
  if Rltb d EPS then Ok (p1 self)
  else if Rltb (- EPS) (d - norm self) then Ok (p2 self)
  else Ok (Point.add
             (Point.from_polar d (Point.phase (Point.sub (p2 self) (p1 self))))
             (p1 self)).

Definition dist (self : t) (p : Point.t) : result R :=
  do q <- closest_point self p;
  Ok (Point.abs (Point.sub p q)).

Definition dist_segment (self s : t) : result R :=
  do hit <- intersects_with self s true;
  if hit then Ok 0
  else
    do d1 <- dist self (p1 s);
    do d2 <- dist self (p2 s);
    do d3 <- dist s (p1 self);
    do d4 <- dist s (p2 self);
    Ok (Rmin (Rmin (Rmin d1 d2) d3) d4).

End Segment.

(** ** Polygon *)

Module Polygon.

Record t : Set := Polygon { points : list Point.t }.

(** Python's three-argument [zip]. *)
Fixpoint zip3 {A B C : Type} (la : list A) (lb : list B) (lc : list C)
  : list (A * B * C) :=
  match la, lb, lc with
  | a :: la, b :: lb, c :: lc => (a, b, c) :: zip3 la lb lc
  | _, _, _ => []
  end.

Definition iter2 (self : t) : list (Point.t * Point.t) :=
  combine (points self) (skipn 1 (points self) ++ firstn 1 (points self)).

Definition iter3 (self : t) : list (Point.t * Point.t * Point.t) :=
  zip3 (points self)
       (skipn 1 (points self) ++ firstn 1 (points self))
       (skipn 2 (points self) ++ firstn 2 (points self)).

Definition area (self : t) : R :=
  Rabs (fsum (map (fun '(p, q) => Point.det p q) (iter2 self))) / 2.

Definition is_convex (self : t) (allow_straight allow_collapsed : bool) : bool :=
  let ccw : gset Z :=
    list_to_set (map (fun '(a, b, c) => Point.ccw a b c) (iter3 self)) in
  if bool_decide (size ccw = 1%nat)
     && (bool_decide (ccw = {[ Point.CCW_CLOCKWISE ]})
         || bool_decide (ccw = {[ Point.CCW_COUNTER_CLOCKWISE ]}))
  then true
  else if allow_straight && bool_decide (size ccw = 2%nat)
          && (bool_decide
                (ccw = {[ Point.CCW_ONLINE_FRONT; Point.CCW_CLOCKWISE ]})
              || bool_decide
                   (ccw = {[ Point.CCW_ONLINE_FRONT;
                             Point.CCW_COUNTER_CLOCKWISE ]}))
  then true
  else if allow_collapsed && bool_decide (size ccw = 3%nat)
  then bool_decide (ccw = {[ Point.CCW_ONLINE_FRONT; Point.CCW_ONLINE_BACK;
                             Point.CCW_ON_SEGMENT ]})
  else false.

(** The [for a, b in self.iter2()] loop of [has_point_on_edge]. *)
Fixpoint has_point_on_edge_loop (edges : list (Point.t * Point.t))
  (p : Point.t) : bool :=
  match edges with
  | [] => false
  | (a, b) :: edges =>
      if (Point.ccw a b p =? Point.CCW_ON_SEGMENT)%Z then true
      else has_point_on_edge_loop edges p
  end.

Definition has_point_on_edge (self : t) (p : Point.t) : bool :=
  has_point_on_edge_loop (iter2 self) p.

(** The loop of [contains]; [angles] is the list built so far. *)
Fixpoint contains_loop (edges : list (Point.t * Point.t)) (p : Point.t)
  (allow_on_edge : bool) (angles : list R) : bool :=
  match edges with
  | [] => Rgtb (Rabs (fsum angles)) EPS
  | (a, b) :: edges =>
      if (Point.ccw a b p =? Point.CCW_ON_SEGMENT)%Z then allow_on_edge
      else contains_loop edges p allow_on_edge (angles ++ [Point.angle p a b])
  end.

Definition contains (self : t) (p : Point.t) (allow_on_edge : bool) : bool :=
  contains_loop (iter2 self) p allow_on_edge [].

End Polygon.

(** * List utilities (list.py)

    The elements of the cumulative maximum and minimum are integers or the
    floats [-inf] and [+inf] that the default arguments introduce; the
    cumulative sum and [argsort] are taken on lists of integers.  [lcm]
    relies on [get_factors] of another module and is not embedded. *)

Module ListPy.

Inductive num : Set :=
| NegInf
| Int (z : Z)
| PosInf.

(** [a < b] *)
Definition num_ltb (a b : num) : bool :=
  match a, b with
  | NegInf, NegInf => false
  | NegInf, _ => true
  | Int x, Int y => (x <? y)%Z
  | Int _, PosInf => true
  | Int _, NegInf => false
  | PosInf, _ => false
  end.

(** Python's two-argument [max(v, cm)] returns [cm] only if [cm > v]. *)
Definition num_max (v cm : num) : num := if num_ltb v cm then cm else v.

(** Python's two-argument [min(v, cm)] returns [cm] only if [cm < v]. *)
Definition num_min (v cm : num) : num := if num_ltb cm v then cm else v.

(** The loop of [cummax]: [cm] is the running maximum, [ret] the list built
    so far. *)
Fixpoint cummax_loop (it : list num) (cm : num) (ret : list num) : list num :=
  match it with
  | [] => ret
  | v :: it => let cm := num_max v cm in cummax_loop it cm (ret ++ [cm])
  end.

Definition cummax (it : list num) (first : num) : list num :=
  cummax_loop it first [].

Fixpoint cummin_loop (it : list num) (cm : num) (ret : list num) : list num :=
  match it with
  | [] => ret
  | v :: it => let cm := num_min v cm in cummin_loop it cm (ret ++ [cm])
  end.

Definition cummin (it : list num) (first : num) : list num :=
  cummin_loop it first [].

Fixpoint cumsum_loop (it : list Z) (cs : Z) (ret : list Z) : list Z :=
  match it with
  | [] => ret
  | v :: it => let cs := (cs + v)%Z in cumsum_loop it cs (ret ++ [cs])
  end.

Definition cumsum (it : list Z) : list Z := cumsum_loop it 0%Z [].

(** [[(a, i) for i, a in enumerate(li)]] *)
Definition enumerate (li : list Z) : list (Z * nat) :=
  combine li (seq 0 (length li)).

(** The comparison [sorted] applies to two of the pairs: on the values
    [key(a)] if a key is given, and otherwise on the pairs themselves,
    lexicographically; [reverse] exchanges the two sides. *)
Definition pair_ltb (key : option (Z -> Z)) (reverse : bool)
  (t u : Z * nat) : bool :=
  let lt (t u : Z * nat) : bool :=
    match key with
    | Some k => (k (fst t) <? k (fst u))%Z
    | None => (fst t <? fst u)%Z || ((fst t =? fst u)%Z && (snd t <? snd u)%nat)
    end in
  if reverse then lt u t else lt t u.

(** [sorted] is stable: an element is placed before the first element that
    is not smaller than it, so elements that compare equal keep their
    order. *)
Fixpoint insert_sorted (ltb : Z * nat -> Z * nat -> bool) (t : Z * nat)
  (l : list (Z * nat)) : list (Z * nat) :=
  match l with
  | [] => [t]
  | u :: l' => if ltb u t then u :: insert_sorted ltb t l' else t :: l
  end.

Definition sorted (ltb : Z * nat -> Z * nat -> bool) (l : list (Z * nat))
  : list (Z * nat) :=
  fold_right (insert_sorted ltb) [] l.

Definition argsort (li : list Z) (key : option (Z -> Z)) (reverse : bool)
  : list nat :=
  map snd (sorted (pair_ltb key reverse) (enumerate li)).

End ListPy.

(** The sum of a list of integers. *)
Definition zsum (l : list Z) : Z := fold_right Z.add 0%Z l.

(** ** The polygons of the examples *)

Definition unit_square : Polygon.t :=
  Polygon.Polygon [Point.from_rect 0 0; Point.from_rect 1 0;
                   Point.from_rect 1 1; Point.from_rect 0 1].

Definition dented_square : Polygon.t :=
  Polygon.Polygon [Point.from_rect 0 0; Point.from_rect 1 0;
                   Point.from_rect (2 / 10) (2 / 10); Point.from_rect 0 1].

(** The classifications of the cyclic vertex triples, as [is_convex]
    collects them. *)
Definition ccw_classes (P : Polygon.t) : gset Z :=
  list_to_set (map (fun '(a, b, c) => Point.ccw a b c) (Polygon.iter3 P)).

(** [a <= b] on integers extended with the two infinities. *)
Definition num_le (a b : ListPy.num) : Prop := ListPy.num_ltb b a = false.

(** The list of running values of [op], starting from [cm]. *)
Fixpoint scan {A : Type} (op : A -> A -> A) (it : list A) (cm : A) : list A :=
  match it with
  | [] => []
  | v :: it => op v cm :: scan op it (op v cm)
  end.

(** The order [sorted] sorts the pairs by, as a proposition. *)
Definition pair_lt (key : option (Z -> Z)) (reverse : bool)
  (t u : Z * nat) : Prop :=
  let lt (t u : Z * nat) : Prop :=
    match key with
    | Some k => (k (fst t) < k (fst u))%Z
    | None => (fst t < fst u)%Z \/ (fst t = fst u /\ (snd t < snd u)%nat)
    end in
  if reverse then lt u t else lt t u.

(** [t] is placed before [u] by a stable sort: it is smaller, or the two
    compare equal and [t] has the smaller index. *)
Definition stable_before (key : option (Z -> Z)) (reverse : bool)
  (t u : Z * nat) : Prop :=
  pair_lt key reverse t u
  \/ (~ pair_lt key reverse u t /\ (snd t < snd u)%nat).

(** The shoelace sum along the path that starts at [h], visits [t] and ends
    at [e]; [Polygon.area] of the vertex list [h :: t] is half the absolute
    value of this sum with [e = h]. *)
Definition path_det_sum (h : Point.t) (t : list Point.t) (e : Point.t) : R :=
  fsum (map (fun '(p, q) => Point.det p q) (combine (h :: t) (t ++ [e]))).

(** * Properties *)

(** ** Facts about the numeric layer *)

Lemma EPS_pos : 0 < EPS.
Proof. unfold EPS. lra. Qed.

Lemma Rltb_spec (x y : R) : reflect (x < y) (Rltb x y).
Proof. unfold Rltb. destruct (Rlt_dec x y); constructor; assumption. Qed.

Lemma Rltb_true (x y : R) : x < y -> Rltb x y = true.
Proof. intros H. destruct (Rltb_spec x y); [reflexivity | contradiction]. Qed.

Lemma Rltb_false (x y : R) : y <= x -> Rltb x y = false.
Proof. intros H. destruct (Rltb_spec x y); [lra | reflexivity]. Qed.

Lemma Rltb_true_iff (x y : R) : Rltb x y = true <-> x < y.
Proof. destruct (Rltb_spec x y); split; intros; try discriminate; tauto. Qed.

Lemma Reqb_spec (x y : R) : reflect (x = y) (Reqb x y).
Proof. unfold Reqb. destruct (Req_dec_T x y); constructor; assumption. Qed.

Lemma fdiv_nonzero (x y : R) : y <> 0 -> fdiv x y = Ok (x / y).
Proof. intros H. unfold fdiv. destruct (Reqb_spec y 0); [contradiction | reflexivity]. Qed.

Lemma fdiv_zero (x : R) : fdiv x 0 = Raise ZeroDivisionError.
Proof. unfold fdiv. destruct (Reqb_spec 0 0); [reflexivity | contradiction]. Qed.

(** Case analysis on every float comparison in the goal. *)
Ltac case_cmp :=
  repeat match goal with
    | |- context [Rltb ?x ?y] => destruct (Rltb_spec x y)
    | |- context [Reqb ?x ?y] => destruct (Reqb_spec x y)
    end.

(** ** Orientation predicate *)

(** C1.  [Point.ccw(a, b, c)], with b' = b - a, c' = c - a and
    det = cross(b', c'), is COUNTER_CLOCKWISE exactly when det > EPS;
    CLOCKWISE exactly when det < -EPS; otherwise (det within the tolerance)
    ONLINE_BACK exactly when dot(b', c') < -EPS; otherwise ONLINE_FRONT
    exactly when |c'| - |b'| > EPS; and ON_SEGMENT in the remaining case.
    For a=(0,0), b=(1,0) the point (0,1) is COUNTER_CLOCKWISE and (0,-1) is
    CLOCKWISE. *)
Theorem ccw_tie_break :
  (forall a b c : Point.t,
      let b' := Point.sub b a in
      let c' := Point.sub c a in
      let det := Point.det b' c' in
      let within := - EPS <= det <= EPS in
      (Point.ccw a b c = Point.CCW_COUNTER_CLOCKWISE <-> det > EPS)
      /\ (Point.ccw a b c = Point.CCW_CLOCKWISE <-> det < - EPS)
      /\ (Point.ccw a b c = Point.CCW_ONLINE_BACK <->
            within /\ Point.dot b' c' < - EPS)
      /\ (Point.ccw a b c = Point.CCW_ONLINE_FRONT <->
            within /\ - EPS <= Point.dot b' c'
            /\ Point.norm c' - Point.norm b' > EPS)
      /\ (Point.ccw a b c = Point.CCW_ON_SEGMENT <->
            within /\ - EPS <= Point.dot b' c'
            /\ Point.norm c' - Point.norm b' <= EPS))
  /\ Point.ccw (Point.from_rect 0 0) (Point.from_rect 1 0) (Point.from_rect 0 1)
     = Point.CCW_COUNTER_CLOCKWISE
  /\ Point.ccw (Point.from_rect 0 0) (Point.from_rect 1 0)
       (Point.from_rect 0 (-1))
     = Point.CCW_CLOCKWISE.
Proof.
  pose proof EPS_pos as HE.
  split; [| split].
  - intros a b c b' c' det within. subst within.
    unfold Point.ccw, Rgtb. fold b' c'. fold det.
    case_cmp; repeat split; intros; try discriminate; try lra;
      try reflexivity.
  - unfold Point.ccw, Rgtb, Point.det, Point.sub, Point.x, Point.y; simpl.
    rewrite Rltb_true by (unfold EPS; lra). reflexivity.
  - unfold Point.ccw, Rgtb, Point.det, Point.sub, Point.x, Point.y; simpl.
    rewrite (Rltb_false EPS) by (unfold EPS; lra).
    rewrite Rltb_true by (unfold EPS; lra). reflexivity.
Qed.

(** ** Modulus of a complex number *)

Lemma cabs_nonneg (z : complex) : 0 <= cabs z.
Proof. apply sqrt_pos. Qed.

Lemma cabs_lt (z : complex) (e : R) :
  0 < e -> real z * real z + imag z * imag z < e * e -> cabs z < e.
Proof.
  intros He H. unfold cabs.
  rewrite <- (sqrt_square e) by lra.
  apply sqrt_lt_1; nra.
Qed.

Lemma cabs_ge (z : complex) (e : R) :
  0 <= e -> e * e <= real z * real z + imag z * imag z -> e <= cabs z.
Proof.
  intros He H. unfold cabs.
  rewrite <- (sqrt_square e) at 1 by lra.
  apply sqrt_le_1; nra.
Qed.

Lemma cabs_eq (z : complex) (e : R) :
  0 <= e -> real z * real z + imag z * imag z = e * e -> cabs z = e.
Proof.
  intros He H. unfold cabs. rewrite H. apply sqrt_square. exact He.
Qed.

Lemma cabs_csub_sym (z w : complex) : cabs (csub z w) = cabs (csub w z).
Proof. unfold cabs, csub; simpl. f_equal. ring. Qed.

Lemma cabs_zero_iff (z : complex) : cabs z = 0 <-> real z = 0 /\ imag z = 0.
Proof.
  unfold cabs. split.
  - intros H. apply sqrt_eq_0 in H; nra.
  - intros [-> ->]. replace (0 * 0 + 0 * 0) with 0 by ring. apply sqrt_0.
Qed.

(** ** Approximate equality of points *)

(** C10.  [Point.__eq__] (distance below EPS) is reflexive and symmetric, and
    it is not transitive: p = (0,0), q = (0.6e-8, 0), r = (1.2e-8, 0) have
    p == q and q == r but not p == r. *)
Theorem point_eq_refl_sym_not_trans :
  (forall p : Point.t, Point.eq p p = true)
  /\ (forall p q : Point.t, Point.eq p q = Point.eq q p)
  /\ (let p := Point.from_rect 0 0 in
      let q := Point.from_rect (6 / 1000000000) 0 in
      let r := Point.from_rect (12 / 1000000000) 0 in
      Point.eq p q = true /\ Point.eq q r = true /\ Point.eq p r = false).
Proof.
  pose proof EPS_pos as HE.
  split; [| split].
  - intros p. unfold Point.eq. apply Rltb_true.
    apply cabs_lt; [exact HE |]. unfold csub; simpl. nra.
  - intros p q. unfold Point.eq. rewrite cabs_csub_sym. reflexivity.
  - simpl. unfold Point.eq; simpl. repeat split.
    + apply Rltb_true. apply cabs_lt; [exact HE |].
      unfold csub, EPS; simpl. lra.
    + apply Rltb_true. apply cabs_lt; [exact HE |].
      unfold csub, EPS; simpl. lra.
    + apply Rltb_false. apply cabs_ge; [lra |].
      unfold csub, EPS; simpl. lra.
Qed.

(** ** Lines *)

(** C7 fails as stated: the line x + 2^-30 * y + 1 = 0 has |b| < EPS, yet
    its gradient and intercept are the finite value -2^30, not +infinity. *)
Lemma gradient_near_vertical_is_finite :
  let l := Line.Line 1 (1 / 1073741824) 1 in
  Rabs (Line.b l) < EPS
  /\ Line.gradient l = Ok (Fin (- 1073741824))
  /\ Line.gradient l <> Ok INF
  /\ Line.intercept l = Ok (Fin (- 1073741824))
  /\ Line.intercept l <> Ok INF.
Proof.
  simpl.
  assert (Hb : 1 / 1073741824 <> 0) by lra.
  unfold Line.gradient, Line.intercept; simpl.
  destruct (Reqb_spec (1 / 1073741824) 0) as [H0 | _]; [contradiction |].
  rewrite fdiv_nonzero by exact Hb. simpl.
  repeat split; try discriminate; try (do 2 f_equal; field).
  rewrite Rabs_pos_eq by lra. unfold EPS. lra.
Qed.

(** C7, amended.  [Line.gradient] and [Line.intercept] return +infinity
    when b is equal to zero (an exact comparison, no tolerance), and when b
    is not zero they return -a/b and -c/b; neither raises. *)
Theorem gradient_intercept_exact_zero_test :
  forall l : Line.t,
    (Line.b l = 0 ->
     Line.gradient l = Ok INF /\ Line.intercept l = Ok INF)
    /\ (Line.b l <> 0 ->
        Line.gradient l = Ok (Fin (- Line.a l / Line.b l))
        /\ Line.intercept l = Ok (Fin (- Line.c l / Line.b l))).
Proof.
  intros l. unfold Line.gradient, Line.intercept.
  destruct (Reqb_spec (Line.b l) 0) as [H0 | Hn].
  - split; [intros _; split; reflexivity | intros H; contradiction].
  - rewrite !fdiv_nonzero by exact Hn. simpl.
    split; [intros H; contradiction | intros _; split; reflexivity].
Qed.

(** The two divisions of [intersection_point] are only reached with a
    non-zero determinant, so the function never raises. *)
Lemma intersection_point_unfold (l1 l2 : Line.t) :
  let det := Line.a l1 * Line.b l2 - Line.a l2 * Line.b l1 in
  Line.intersection_point l1 l2 =
    if Rltb (Rabs det) EPS then Ok None
    else Ok (Some (Point.from_rect
                     ((Line.b l1 * Line.c l2 - Line.b l2 * Line.c l1) / det)
                     ((Line.a l2 * Line.c l1 - Line.a l1 * Line.c l2) / det))).
Proof.
  pose proof EPS_pos as HE.
  intros det. unfold Line.intersection_point. fold det.
  destruct (Rltb_spec (Rabs det) EPS) as [Hlt | Hge]; [reflexivity |].
  assert (Hdet : det <> 0).
  { intros H0. apply Hge. rewrite H0, Rabs_R0. exact HE. }
  rewrite !fdiv_nonzero by exact Hdet. reflexivity.
Qed.

Lemma intersection_point_sym (l1 l2 : Line.t) :
  Line.intersection_point l1 l2 = Line.intersection_point l2 l1.
Proof.
  pose proof EPS_pos as HE.
  rewrite !intersection_point_unfold.
  set (d := Line.a l1 * Line.b l2 - Line.a l2 * Line.b l1).
  replace (Line.a l2 * Line.b l1 - Line.a l1 * Line.b l2) with (- d)
    by (unfold d; ring).
  rewrite Rabs_Ropp.
  destruct (Rltb_spec (Rabs d) EPS) as [Hlt | Hge]; [reflexivity |].
  assert (Hd : d <> 0).
  { intros H0. apply Hge. rewrite H0, Rabs_R0. exact HE. }
  do 3 f_equal; field; exact Hd.
Qed.

(** C3.  [Line.intersection_point] returns None exactly when
    |a1*b2 - a2*b1| < EPS; otherwise it returns the point
    ((b1*c2 - b2*c1)/det, (a2*c1 - a1*c2)/det) with det = a1*b2 - a2*b1, the
    solution of the two line equations by Cramer's rule, and does not raise.
    Two lines with proportional (a, b) have no intersection point. *)
Theorem intersection_point_cramer :
  forall l1 l2 : Line.t,
    let det := Line.a l1 * Line.b l2 - Line.a l2 * Line.b l1 in
    let X := (Line.b l1 * Line.c l2 - Line.b l2 * Line.c l1) / det in
    let Y := (Line.a l2 * Line.c l1 - Line.a l1 * Line.c l2) / det in
    (Line.intersection_point l1 l2 = Ok None <-> Rabs det < EPS)
    /\ (~ Rabs det < EPS ->
        Line.intersection_point l1 l2 = Ok (Some (Point.from_rect X Y)))
    /\ (forall k : R,
           Line.a l2 = k * Line.a l1 -> Line.b l2 = k * Line.b l1 ->
           Line.intersection_point l1 l2 = Ok None).
Proof.
  pose proof EPS_pos as HE.
  intros l1 l2 det X Y.
  pose proof (intersection_point_unfold l1 l2) as Hip. simpl in Hip.
  fold det in Hip. fold X Y in Hip. rewrite Hip. clear Hip.
  split; [| split].
  - destruct (Rltb_spec (Rabs det) EPS); split; intros; try discriminate;
      try reflexivity; tauto.
  - intros Hge.
    destruct (Rltb_spec (Rabs det) EPS) as [Hlt | _]; [contradiction |].
    reflexivity.
  - intros k Ha Hb.
    assert (H0 : det = 0) by (unfold det; rewrite Ha, Hb; ring).
    rewrite Rltb_true; [reflexivity |]. rewrite H0, Rabs_R0. exact HE.
Qed.

(** ** Segments *)

Lemma is_parallel_to_sym (l1 l2 : Line.t) :
  Line.is_parallel_to l1 l2 = Line.is_parallel_to l2 l1.
Proof.
  unfold Line.is_parallel_to, Point.det, Point.from_rect, Point.x, Point.y.
  simpl. f_equal.
  replace (Line.a l2 * Line.b l1 - Line.b l2 * Line.a l1)
    with (- (Line.a l1 * Line.b l2 - Line.b l1 * Line.a l2)) by ring.
  symmetry. apply Rabs_Ropp.
Qed.

(** Lines that are not parallel have an intersection point. *)
Lemma not_parallel_intersection (l1 l2 : Line.t) :
  Line.is_parallel_to l1 l2 = false ->
  exists p : Point.t, Line.intersection_point l1 l2 = Ok (Some p).
Proof.
  intros Hp. rewrite intersection_point_unfold.
  unfold Line.is_parallel_to, Point.det, Point.from_rect, Point.x, Point.y
    in Hp. simpl in Hp.
  replace (Line.a l1 * Line.b l2 - Line.a l2 * Line.b l1)
    with (Line.a l1 * Line.b l2 - Line.b l1 * Line.a l2) by ring.
  rewrite Hp. eexists. reflexivity.
Qed.

(** C8.  [s1.intersects_with(s2, allow_side)] and
    [s2.intersects_with(s1, allow_side)] are equal for all segments (distinct
    endpoints or not) and both values of [allow_side]; the call returns a
    boolean, the [None] of [intersection_point] being unreachable. *)
Theorem intersects_with_symmetric :
  forall (s1 s2 : Segment.t) (allow_side : bool),
    Segment.intersects_with s1 s2 allow_side
    = Segment.intersects_with s2 s1 allow_side
    /\ exists r : bool, Segment.intersects_with s1 s2 allow_side = Ok r.
Proof.
  intros s1 s2 allow_side. unfold Segment.intersects_with.
  set (l1 := Line.from_segment (Segment.p1 s1) (Segment.p2 s1)).
  set (l2 := Line.from_segment (Segment.p1 s2) (Segment.p2 s2)).
  rewrite (is_parallel_to_sym l2 l1), (intersection_point_sym l2 l1).
  destruct (Line.is_parallel_to l1 l2) eqn:Hpar.
  - split; [| eexists; reflexivity].
    f_equal.
    destruct (Point.on_segment (Segment.p1 s2) _ _ _),
      (Point.on_segment (Segment.p2 s2) _ _ _),
      (Point.on_segment (Segment.p1 s1) _ _ _),
      (Point.on_segment (Segment.p2 s1) _ _ _); reflexivity.
  - destruct (not_parallel_intersection l1 l2 Hpar) as [p ->]. simpl.
    split; [| eexists; reflexivity].
    f_equal. apply andb_comm.
Qed.

(** C4 fails as stated: on the segment from (0,0) to (0,0) the length is 0
    and the division in [closest_point] raises, and so does [dist]. *)
Lemma closest_point_degenerate_raises :
  let s := Segment.Segment (Point.from_rect 0 0) (Point.from_rect 0 0) in
  let p := Point.from_rect 1 1 in
  Point.eq (Segment.p1 s) (Segment.p2 s) = true
  /\ Segment.norm s = 0
  /\ Segment.closest_point s p = Raise ZeroDivisionError
  /\ Segment.dist s p = Raise ZeroDivisionError.
Proof.
  simpl.
  assert (Hn : Segment.norm
                 (Segment.Segment (Point.from_rect 0 0) (Point.from_rect 0 0))
               = 0).
  { unfold Segment.norm, Point.abs. apply cabs_zero_iff. simpl. lra. }
  split.
  { unfold Point.eq. apply Rltb_true. fold (Point.dist (Point.from_rect 0 0)
      (Point.from_rect 0 0)). unfold Segment.norm, Point.abs in Hn.
    unfold Point.dist. simpl in *. rewrite Hn. exact EPS_pos. }
  split; [exact Hn |].
  unfold Segment.dist, Segment.closest_point. rewrite Hn, fdiv_zero.
  split; reflexivity.
Qed.

Lemma segment_norm_zero_iff (s : Segment.t) :
  Segment.norm s = 0 <-> Segment.p1 s = Segment.p2 s.
Proof.
  unfold Segment.norm, Point.abs. rewrite cabs_zero_iff.
  destruct s as [[[x1 y1]] [[x2 y2]]]. simpl. split.
  - intros [Hx Hy]. do 2 f_equal; lra.
  - intros H. injection H as -> ->. lra.
Qed.

(** C4, amended.  The division by [norm()] is not guarded.
    [Segment.closest_point(p)] and [Segment.dist(p)] return a result exactly
    when the segment has non-zero length; on a segment of length zero, i.e.
    one whose two endpoints are identical, both raise ZeroDivisionError. *)
Theorem closest_point_defined_iff_nonzero_length :
  forall (s : Segment.t) (p : Point.t),
    ((exists q : Point.t, Segment.closest_point s p = Ok q)
     <-> Segment.norm s <> 0)
    /\ ((exists d : R, Segment.dist s p = Ok d) <-> Segment.norm s <> 0)
    /\ (Segment.closest_point s p = Raise ZeroDivisionError
        <-> Segment.norm s = 0)
    /\ (Segment.dist s p = Raise ZeroDivisionError <-> Segment.norm s = 0)
    /\ (Segment.norm s = 0 <-> Segment.p1 s = Segment.p2 s).
Proof.
  intros s p.
  split; [| split; [| split; [| split]]]; [| | | | apply segment_norm_zero_iff];
    unfold Segment.dist, Segment.closest_point, fdiv;
    destruct (Reqb_spec (Segment.norm s) 0) as [H0 | Hn]; simpl.
  - split; [intros [q Hq]; discriminate | intros H; contradiction].
  - split; [intros _; exact Hn |]. intros _. case_cmp; eexists; reflexivity.
  - split; [intros [q Hq]; discriminate | intros H; contradiction].
  - split; [intros _; exact Hn |]. intros _. case_cmp; eexists; reflexivity.
  - split; [intros _; exact H0 | reflexivity].
  - split; [| intros H; contradiction]. case_cmp; discriminate.
  - split; [intros _; exact H0 | reflexivity].
  - split; [| intros H; contradiction]. case_cmp; discriminate.
Qed.

(** ** Float modulo and the turn angle *)

Lemma TAU_pos : 0 < TAU.
Proof. unfold TAU. pose proof PI_RGT_0. lra. Qed.

Lemma fmod_range (x m : R) : 0 < m -> 0 <= fmod x m < m.
Proof.
  intros Hm. unfold fmod.
  destruct (base_Int_part (x / m)) as [Hlo Hhi].
  set (k := IZR (Int_part (x / m))) in *.
  set (q := x / m) in *.
  assert (Hx : x = q * m) by (unfold q; field; lra).
  clearbody k q. split; nra.
Qed.

(** [x % m] is the remainder [r] of any decomposition [x = r + k*m] with
    [0 <= r < m]. *)
Lemma fmod_unique (x m r : R) (k : Z) :
  0 < m -> x = r + IZR k * m -> 0 <= r < m -> fmod x m = r.
Proof.
  intros Hm Hx Hr. unfold fmod.
  assert (Hq : x / m = r / m + IZR k) by (rewrite Hx; field; lra).
  assert (Hrm : 0 <= r / m < 1).
  { split.
    - apply Rmult_le_pos; [lra |]. left. apply Rinv_0_lt_compat. exact Hm.
    - apply (Rmult_lt_reg_r m); [exact Hm |].
      replace (r / m * m) with r by (field; lra). lra. }
  rewrite <- (Int_part_spec (x / m) k) by lra.
  rewrite Hx. ring.
Qed.

Lemma fmod_small (x m : R) : 0 <= x < m -> fmod x m = x.
Proof.
  intros Hx. apply (fmod_unique x m x 0); [lra | simpl; ring | exact Hx].
Qed.

(** A phase difference already in [-pi, pi) is left unchanged. *)
Lemma normalise_small (d : R) : - PI <= d < PI -> fmod (d + PI) TAU - PI = d.
Proof.
  intros Hd. rewrite fmod_small; [ring |]. unfold TAU. lra.
Qed.

Lemma atan2_pos_x (y x : R) : 0 < x -> atan2 y x = atan (y / x).
Proof. intros H. unfold atan2. rewrite Rltb_true by exact H. reflexivity. Qed.

Lemma atan2_neg_x_neg_y (y x : R) :
  x < 0 -> y < 0 -> atan2 y x = atan (y / x) - PI.
Proof.
  intros Hx Hy. unfold atan2.
  rewrite (Rltb_false 0 x), (Rltb_true x 0), (Rltb_true y 0) by lra.
  reflexivity.
Qed.

Lemma atan2_neg_x_nonneg_y (y x : R) :
  x < 0 -> 0 <= y -> atan2 y x = atan (y / x) + PI.
Proof.
  intros Hx Hy. unfold atan2.
  rewrite (Rltb_false 0 x), (Rltb_true x 0), (Rltb_false y 0) by lra.
  reflexivity.
Qed.

Lemma atan_m1 : atan (- 1) = - (PI / 4).
Proof.
  replace (- 1) with (Ropp 1) by lra. rewrite atan_opp, atan_1. reflexivity.
Qed.

(** C6 fails as stated: turning from (1,0) to (-1,0) about the origin gives
    exactly -pi, although both points differ from the origin. *)
Lemma angle_half_turn_is_minus_pi :
  let self := Point.from_rect 0 0 in
  let p := Point.from_rect 1 0 in
  let q := Point.from_rect (- 1) 0 in
  Point.eq p self = false /\ Point.eq q self = false
  /\ Point.angle self p q = - PI
  /\ ~ (- PI < Point.angle self p q <= PI).
Proof.
  pose proof PI_RGT_0 as Hpi. simpl.
  assert (Ha : Point.angle (Point.from_rect 0 0) (Point.from_rect 1 0)
                 (Point.from_rect (- 1) 0) = - PI).
  { unfold Point.angle, cphase; simpl.
    rewrite atan2_neg_x_nonneg_y, atan2_pos_x by lra.
    replace ((0 - 0) / (-1 - 0)) with 0 by (field; lra).
    replace ((0 - 0) / (1 - 0)) with 0 by (field; lra).
    rewrite atan_0.
    rewrite (fmod_unique _ TAU 0 1); [ring | exact TAU_pos | |].
    - unfold TAU. simpl. ring.
    - pose proof TAU_pos. lra. }
  split; [| split; [| split]].
  - unfold Point.eq. apply Rltb_false. apply cabs_ge; [pose proof EPS_pos; lra |].
    unfold EPS; simpl. lra.
  - unfold Point.eq. apply Rltb_false. apply cabs_ge; [pose proof EPS_pos; lra |].
    unfold EPS; simpl. lra.
  - exact Ha.
  - rewrite Ha. lra.
Qed.

(** C6, amended.  [Point.angle(p, q)] equals
    ((phase(q - self) - phase(p - self) + pi) mod 2*pi) - pi for all points
    (coinciding with self or not), and its value lies in the closed interval
    [-pi, pi], as the docstring of [angle] says: the lower end -pi is a
    possible result. *)
Theorem angle_formula_and_range :
  forall self p q : Point.t,
    Point.angle self p q
    = fmod (Point.phase (Point.sub q self) - Point.phase (Point.sub p self)
            + PI) (2 * PI) - PI
    /\ - PI <= Point.angle self p q <= PI.
Proof.
  intros self p q. split.
  - unfold Point.angle, Point.phase, Point.sub, TAU; simpl.
    replace (PI * 2) with (2 * PI) by ring. reflexivity.
  - unfold Point.angle.
    pose proof (fmod_range
                  (cphase (csub (Point.c q) (Point.c self))
                   - cphase (csub (Point.c p) (Point.c self)) + PI)
                  TAU TAU_pos) as H.
    unfold TAU in *. lra.
Qed.

(** ** Deciding [ccw] from the cross product *)

Lemma ccw_left (a b c : Point.t) :
  Point.det (Point.sub b a) (Point.sub c a) > EPS ->
  Point.ccw a b c = Point.CCW_COUNTER_CLOCKWISE.
Proof.
  intros H. unfold Point.ccw, Rgtb. rewrite Rltb_true by exact H. reflexivity.
Qed.

Lemma ccw_right (a b c : Point.t) :
  Point.det (Point.sub b a) (Point.sub c a) < - EPS ->
  Point.ccw a b c = Point.CCW_CLOCKWISE.
Proof.
  pose proof EPS_pos as HE.
  intros H. unfold Point.ccw, Rgtb.
  rewrite (Rltb_false EPS) by lra. rewrite Rltb_true by exact H. reflexivity.
Qed.

Lemma ccw_between (a b c : Point.t) :
  - EPS <= Point.det (Point.sub b a) (Point.sub c a) <= EPS ->
  - EPS <= Point.dot (Point.sub b a) (Point.sub c a) ->
  Point.norm (Point.sub c a) - Point.norm (Point.sub b a) <= EPS ->
  Point.ccw a b c = Point.CCW_ON_SEGMENT.
Proof.
  intros Hdet Hdot Hn. unfold Point.ccw, Rgtb.
  rewrite !Rltb_false by lra. reflexivity.
Qed.

(** Evaluates [ccw] at concrete points off the line. *)
Ltac ccw_by_det :=
  first [ rewrite ccw_left
            by (unfold Point.det, Point.sub, Point.x, Point.y, EPS; simpl; lra)
        | rewrite ccw_right
            by (unfold Point.det, Point.sub, Point.x, Point.y, EPS; simpl; lra) ].

(** ** Cyclic iteration over the vertices *)

Lemma rotate_length {A : Type} (l : list A) (k : nat) :
  length (skipn k l ++ firstn k l) = length l.
Proof. rewrite length_app, length_skipn, length_firstn. lia. Qed.

(** [l[k:] + l[:k]] is [l] rotated by [k] places. *)
Lemma rotate_nth {A : Type} (l : list A) (k i : nat) (d : A) :
  (k <= length l)%nat -> (i < length l)%nat ->
  nth i (skipn k l ++ firstn k l) d = nth (Nat.modulo (i + k) (length l)) l d.
Proof.
  intros Hk Hi. destruct (Nat.lt_ge_cases i (length l - k)) as [Hlt | Hge].
  - rewrite app_nth1 by (rewrite length_skipn; exact Hlt).
    rewrite nth_skipn, Nat.mod_small by lia. f_equal. lia.
  - rewrite app_nth2 by (rewrite length_skipn; lia).
    rewrite length_skipn, nth_firstn.
    destruct (Nat.ltb_spec (i - (length l - k)) k) as [_ | Hbad]; [| lia].
    f_equal. apply (Nat.mod_unique _ _ 1); lia.
Qed.

Lemma zip3_length {A B C : Type} (la : list A) (lb : list B) (lc : list C) :
  length la = length lb -> length la = length lc ->
  length (Polygon.zip3 la lb lc) = length la.
Proof.
  revert lb lc. induction la as [| a la IH]; intros [| b lb] [| c lc];
    simpl; intros Hb Hc; try discriminate; [reflexivity |].
  f_equal. apply IH; lia.
Qed.

Lemma zip3_nth {A B C : Type} (la : list A) (lb : list B) (lc : list C)
  (i : nat) (a : A) (b : B) (c : C) :
  length la = length lb -> length la = length lc ->
  nth i (Polygon.zip3 la lb lc) (a, b, c) = (nth i la a, nth i lb b, nth i lc c).
Proof.
  revert lb lc i. induction la as [| a' la IH]; intros [| b' lb] [| c' lc] i;
    simpl; intros Hb Hc; try discriminate.
  - destruct i; reflexivity.
  - destruct i as [| i]; [reflexivity |]. apply IH; lia.
Qed.

(** X28.  [Polygon.iter2] yields one pair per vertex: pair i is vertex i
    with vertex i+1 modulo the number of vertices, so the last vertex is paired
    with the first. *)
Lemma iter2_cyclic (P : Polygon.t) (d : Point.t) :
  let n := length (Polygon.points P) in
  length (Polygon.iter2 P) = n
  /\ forall i : nat, (i < n)%nat ->
       nth i (Polygon.iter2 P) (d, d)
       = (nth i (Polygon.points P) d,
          nth (Nat.modulo (i + 1) n) (Polygon.points P) d).
Proof.
  intros n. unfold Polygon.iter2. split.
  - rewrite length_combine, rotate_length. apply Nat.min_id.
  - intros i Hi. rewrite combine_nth by (rewrite rotate_length; reflexivity).
    rewrite rotate_nth by (unfold n in *; lia). reflexivity.
Qed.

(** X29.  [Polygon.iter3] yields one triple per vertex: triple i holds the
    vertices i, i+1 and i+2 modulo the number of vertices, also for polygons
    with one or two vertices. *)
Lemma iter3_cyclic (P : Polygon.t) (d : Point.t) :
  let n := length (Polygon.points P) in
  length (Polygon.iter3 P) = n
  /\ forall i : nat, (i < n)%nat ->
       nth i (Polygon.iter3 P) (d, d, d)
       = (nth i (Polygon.points P) d,
          nth (Nat.modulo (i + 1) n) (Polygon.points P) d,
          nth (Nat.modulo (i + 2) n) (Polygon.points P) d).
Proof.
  intros n. unfold Polygon.iter3. split.
  - apply zip3_length; rewrite rotate_length; reflexivity.
  - intros i Hi. rewrite zip3_nth by (rewrite rotate_length; reflexivity).
    rewrite (rotate_nth _ 1) by (unfold n in *; lia).
    destruct (Polygon.points P) as [| p0 [| p1 l]] eqn:Hpts.
    + simpl in n. lia.
    + simpl in n. assert (i = 0)%nat as -> by lia. reflexivity.
    + rewrite (rotate_nth _ 2) by (simpl in *; lia). reflexivity.
Qed.

(** ** Convexity *)

(** The decision [is_convex] takes on the set of classifications. *)
Lemma is_convex_decision (S : gset Z) (allow_straight allow_collapsed : bool) :
  (if bool_decide (size S = 1%nat)
      && (bool_decide (S = {[ Point.CCW_CLOCKWISE ]})
          || bool_decide (S = {[ Point.CCW_COUNTER_CLOCKWISE ]}))
   then true
   else if allow_straight && bool_decide (size S = 2%nat)
           && (bool_decide
                 (S = {[ Point.CCW_ONLINE_FRONT; Point.CCW_CLOCKWISE ]})
               || bool_decide
                    (S = {[ Point.CCW_ONLINE_FRONT;
                            Point.CCW_COUNTER_CLOCKWISE ]}))
   then true
   else if allow_collapsed && bool_decide (size S = 3%nat)
   then bool_decide (S = {[ Point.CCW_ONLINE_FRONT; Point.CCW_ONLINE_BACK;
                            Point.CCW_ON_SEGMENT ]})
   else false) = true
  <-> S = {[ Point.CCW_CLOCKWISE ]}
      \/ S = {[ Point.CCW_COUNTER_CLOCKWISE ]}
      \/ (allow_straight = true
          /\ (S = {[ Point.CCW_ONLINE_FRONT; Point.CCW_CLOCKWISE ]}
              \/ S = {[ Point.CCW_ONLINE_FRONT;
                        Point.CCW_COUNTER_CLOCKWISE ]}))
      \/ (allow_collapsed = true
          /\ S = {[ Point.CCW_ONLINE_FRONT; Point.CCW_ONLINE_BACK;
                    Point.CCW_ON_SEGMENT ]}).
Proof.
  split.
  - repeat case_bool_decide; destruct allow_straight, allow_collapsed; simpl;
      intros Hc; try discriminate Hc; tauto.
  - intros [-> | [-> | [[-> [-> | ->]] | [-> ->]]]];
      repeat match goal with b : bool |- _ => destruct b end;
      vm_compute; reflexivity.
Qed.

Lemma unit_square_classes :
  ccw_classes unit_square = {[ Point.CCW_COUNTER_CLOCKWISE ]}.
Proof.
  unfold ccw_classes, unit_square, Polygon.iter3. simpl.
  repeat ccw_by_det. vm_compute. reflexivity.
Qed.

Lemma dented_square_classes :
  ccw_classes dented_square
  = {[ Point.CCW_COUNTER_CLOCKWISE; Point.CCW_CLOCKWISE ]}.
Proof.
  unfold ccw_classes, dented_square, Polygon.iter3. simpl.
  repeat ccw_by_det. vm_compute. reflexivity.
Qed.

(** C5.  [Polygon.is_convex(allow_straight, allow_collapsed)] is true
    exactly when the set of distinct ccw classifications of the cyclic vertex
    triples is {CLOCKWISE} or {COUNTER_CLOCKWISE}; or [allow_straight] is set
    and the set is {ONLINE_FRONT, CLOCKWISE} or
    {ONLINE_FRONT, COUNTER_CLOCKWISE}; or [allow_collapsed] is set and the set
    is {ONLINE_FRONT, ONLINE_BACK, ON_SEGMENT}; it is false otherwise.  The
    unit square is convex and the square with the vertex (0.2, 0.2) pushed
    inside is not. *)
Theorem is_convex_by_class_set :
  (forall (P : Polygon.t) (allow_straight allow_collapsed : bool),
      let S : gset Z :=
        list_to_set
          (map (fun '(a, b, c) => Point.ccw a b c) (Polygon.iter3 P)) in
      Polygon.is_convex P allow_straight allow_collapsed = true
      <-> S = {[ Point.CCW_CLOCKWISE ]}
          \/ S = {[ Point.CCW_COUNTER_CLOCKWISE ]}
          \/ (allow_straight = true
              /\ (S = {[ Point.CCW_ONLINE_FRONT; Point.CCW_CLOCKWISE ]}
                  \/ S = {[ Point.CCW_ONLINE_FRONT;
                            Point.CCW_COUNTER_CLOCKWISE ]}))
          \/ (allow_collapsed = true
              /\ S = {[ Point.CCW_ONLINE_FRONT; Point.CCW_ONLINE_BACK;
                        Point.CCW_ON_SEGMENT ]}))
  /\ (forall allow_straight allow_collapsed : bool,
         Polygon.is_convex unit_square allow_straight allow_collapsed = true)
  /\ (forall allow_straight allow_collapsed : bool,
         Polygon.is_convex dented_square allow_straight allow_collapsed
         = false).
Proof.
  split; [| split].
  - intros P allow_straight allow_collapsed S.
    unfold Polygon.is_convex. fold S. apply is_convex_decision.
  - intros allow_straight allow_collapsed.
    apply (is_convex_decision (ccw_classes unit_square)).
    right. left. exact unit_square_classes.
  - intros allow_straight allow_collapsed.
    apply not_true_is_false. intros Hc.
    apply (is_convex_decision (ccw_classes dented_square)) in Hc.
    rewrite dented_square_classes in Hc.
    destruct Hc as [Hc | [Hc | [[_ [Hc | Hc]] | [_ Hc]]]];
      vm_compute in Hc; discriminate Hc.
Qed.

(** ** Containment *)

Lemma has_point_on_edge_loop_true_iff (edges : list (Point.t * Point.t))
  (p : Point.t) :
  Polygon.has_point_on_edge_loop edges p = true
  <-> exists a b : Point.t,
      In (a, b) edges /\ Point.ccw a b p = Point.CCW_ON_SEGMENT.
Proof.
  induction edges as [| [a b] edges IH]; simpl.
  - split; [discriminate | intros (a & b & [] & _)].
  - destruct (Z.eqb_spec (Point.ccw a b p) Point.CCW_ON_SEGMENT) as [He | Hne].
    + split; [| reflexivity]. intros _. exists a, b. split; [left; reflexivity | exact He].
    + rewrite IH. split.
      * intros (a' & b' & Hin & Hc). exists a', b'. split; [right; exact Hin | exact Hc].
      * intros (a' & b' & [Heq | Hin] & Hc).
        -- injection Heq as <- <-. contradiction.
        -- exists a', b'. split; assumption.
Qed.

(** The loop of [contains] returns [allow_on_edge] if the loop of
    [has_point_on_edge] finds an edge, and otherwise compares the sum of all
    the angles with EPS. *)
Lemma contains_loop_spec (edges : list (Point.t * Point.t)) (p : Point.t)
  (allow_on_edge : bool) :
  forall angles : list R,
    Polygon.contains_loop edges p allow_on_edge angles
    = if Polygon.has_point_on_edge_loop edges p then allow_on_edge
      else Rgtb (Rabs (fsum (angles
                             ++ map (fun '(a, b) => Point.angle p a b) edges)))
             EPS.
Proof.
  induction edges as [| [a b] edges IH]; intros angles; simpl.
  - rewrite app_nil_r. reflexivity.
  - destruct (Point.ccw a b p =? Point.CCW_ON_SEGMENT)%Z; [reflexivity |].
    rewrite IH, <- app_assoc. reflexivity.
Qed.

Lemma contains_spec (P : Polygon.t) (p : Point.t) (allow_on_edge : bool) :
  Polygon.contains P p allow_on_edge
  = if Polygon.has_point_on_edge P p then allow_on_edge
    else Rgtb (Rabs (fsum (map (fun '(a, b) => Point.angle p a b)
                             (Polygon.iter2 P)))) EPS.
Proof. unfold Polygon.contains. rewrite contains_loop_spec. reflexivity. Qed.

(** C9.  [has_point_on_edge(p)] is true exactly when [contains(p, True)] and
    [contains(p, False)] disagree; the two agree exactly when no cyclic edge
    classifies p as ON_SEGMENT. *)
Theorem on_edge_iff_contains_variants_disagree :
  forall (P : Polygon.t) (p : Point.t),
    (Polygon.has_point_on_edge P p = true
     <-> Polygon.contains P p true <> Polygon.contains P p false)
    /\ (Polygon.contains P p true = Polygon.contains P p false
        <-> forall a b : Point.t,
            In (a, b) (Polygon.iter2 P) ->
            Point.ccw a b p <> Point.CCW_ON_SEGMENT).
Proof.
  intros P p. rewrite !contains_spec.
  pose proof (has_point_on_edge_loop_true_iff (Polygon.iter2 P) p) as Hex.
  fold (Polygon.has_point_on_edge P p) in Hex.
  destruct (Polygon.has_point_on_edge P p).
  - split.
    + split; [intros _; discriminate | reflexivity].
    + split; [discriminate |]. intros Hall.
      destruct Hex as [Hex _]. destruct (Hex eq_refl) as (a & b & Hin & Hc).
      exfalso. exact (Hall a b Hin Hc).
  - split.
    + split; [discriminate |]. intros Hne. exfalso. apply Hne. reflexivity.
    + split; [| reflexivity]. intros _ a b Hin Hc.
      destruct Hex as [_ Hex]. discriminate Hex. exists a, b. split; assumption.
Qed.

(** Phases of the four diagonal directions. *)
Lemma atan2_north_east (t y x : R) :
  0 < t -> y = t -> x = t -> atan2 y x = PI / 4.
Proof.
  intros Ht -> ->. rewrite atan2_pos_x by exact Ht.
  replace (t / t) with 1 by (field; lra). apply atan_1.
Qed.

Lemma atan2_north_west (t y x : R) :
  0 < t -> y = t -> x = - t -> atan2 y x = 3 * (PI / 4).
Proof.
  intros Ht -> ->. rewrite atan2_neg_x_nonneg_y by lra.
  replace (t / - t) with (- 1) by (field; lra). rewrite atan_m1. lra.
Qed.

Lemma atan2_south_west (t y x : R) :
  0 < t -> y = - t -> x = - t -> atan2 y x = - (3 * (PI / 4)).
Proof.
  intros Ht -> ->. rewrite atan2_neg_x_neg_y by lra.
  replace (- t / - t) with 1 by (field; lra). rewrite atan_1. lra.
Qed.

Lemma atan2_south_east (t y x : R) :
  0 < t -> y = - t -> x = t -> atan2 y x = - (PI / 4).
Proof.
  intros Ht -> ->. rewrite atan2_pos_x by exact Ht.
  replace (- t / t) with (- 1) by (field; lra). apply atan_m1.
Qed.

(** Every direction pointing strictly to the left and downwards has its
    phase in (-3*pi/2, -pi/2). *)
Lemma atan2_lower_left_bound (y x : R) :
  x < 0 -> y < 0 -> - (3 * (PI / 2)) < atan2 y x < - (PI / 2).
Proof.
  intros Hx Hy. rewrite atan2_neg_x_neg_y by assumption.
  pose proof (atan_bound (y / x)). lra.
Qed.

Lemma unit_square_edges :
  Polygon.iter2 unit_square
  = [(Point.from_rect 0 0, Point.from_rect 1 0);
     (Point.from_rect 1 0, Point.from_rect 1 1);
     (Point.from_rect 1 1, Point.from_rect 0 1);
     (Point.from_rect 0 1, Point.from_rect 0 0)].
Proof. reflexivity. Qed.

(** Seen from the centre, every edge of the unit square subtends a quarter
    turn. *)
Lemma unit_square_centre_angles :
  map (fun '(a, b) => Point.angle (Point.from_rect (1 / 2) (1 / 2)) a b)
    (Polygon.iter2 unit_square)
  = [PI / 2; PI / 2; PI / 2; PI / 2].
Proof.
  pose proof PI_RGT_0 as Hpi.
  rewrite unit_square_edges. unfold Point.angle, cphase, csub. simpl.
  rewrite (atan2_south_west (1 / 2) (0 - 1 / 2) (0 - 1 / 2)) by lra.
  rewrite (atan2_south_east (1 / 2) (0 - 1 / 2) (1 - 1 / 2)) by lra.
  rewrite (atan2_north_east (1 / 2) (1 - 1 / 2) (1 - 1 / 2)) by lra.
  rewrite (atan2_north_west (1 / 2) (1 - 1 / 2) (0 - 1 / 2)) by lra.
  repeat f_equal.
  - rewrite (fmod_unique _ TAU (3 * (PI / 2)) 0);
      [lra | exact TAU_pos | unfold TAU; simpl; lra | unfold TAU; lra].
  - rewrite (fmod_unique _ TAU (3 * (PI / 2)) 0);
      [lra | exact TAU_pos | unfold TAU; simpl; lra | unfold TAU; lra].
  - rewrite (fmod_unique _ TAU (3 * (PI / 2)) 0);
      [lra | exact TAU_pos | unfold TAU; simpl; lra | unfold TAU; lra].
  - rewrite (fmod_unique _ TAU (3 * (PI / 2)) (-1));
      [lra | exact TAU_pos | unfold TAU; simpl; lra | unfold TAU; lra].
Qed.

(** Seen from (2,2), the angles subtended by the edges of the unit square
    cancel. *)
Lemma unit_square_outside_angles :
  fsum (map (fun '(a, b) => Point.angle (Point.from_rect 2 2) a b)
          (Polygon.iter2 unit_square)) = 0.
Proof.
  rewrite unit_square_edges. unfold Point.angle, cphase, csub. simpl.
  pose proof (atan2_lower_left_bound (0 - 2) (0 - 2)) as H0.
  pose proof (atan2_lower_left_bound (0 - 2) (1 - 2)) as H1.
  pose proof (atan2_lower_left_bound (1 - 2) (1 - 2)) as H2.
  pose proof (atan2_lower_left_bound (1 - 2) (0 - 2)) as H3.
  set (f0 := atan2 (0 - 2) (0 - 2)) in *.
  set (f1 := atan2 (0 - 2) (1 - 2)) in *.
  set (f2 := atan2 (1 - 2) (1 - 2)) in *.
  set (f3 := atan2 (1 - 2) (0 - 2)) in *.
  rewrite !normalise_small by lra. ring.
Qed.

(** The midpoint (0, 0.5) of the left edge is ON_SEGMENT for the edge from
    (0,1) to (0,0). *)
Lemma unit_square_left_edge_midpoint :
  Polygon.has_point_on_edge unit_square (Point.from_rect 0 (1 / 2)) = true.
Proof.
  pose proof EPS_pos as HE.
  apply has_point_on_edge_loop_true_iff.
  exists (Point.from_rect 0 1), (Point.from_rect 0 0).
  split; [rewrite unit_square_edges; simpl; tauto |].
  apply ccw_between.
  - unfold Point.det, Point.sub, Point.x, Point.y; simpl. lra.
  - unfold Point.dot, Point.sub, Point.x, Point.y; simpl. lra.
  - unfold Point.norm, Point.sub; simpl.
    rewrite (cabs_eq _ (1 / 2)), (cabs_eq _ 1); simpl; lra.
Qed.

(** C2.  [Polygon.contains(p, allow_on_edge)] returns [allow_on_edge] when
    some cyclic edge (a, b) classifies p as ON_SEGMENT under ccw; otherwise it
    is true exactly when the absolute value of the sum of the turn angles
    p.angle(a, b) over all cyclic edges exceeds EPS.  For the unit square,
    (0.5, 0.5) is contained, (2, 2) is not, and (0, 0.5) is contained with
    allow_on_edge=True and not with allow_on_edge=False. *)
Theorem contains_winding :
  (forall (P : Polygon.t) (p : Point.t) (allow_on_edge : bool),
      ((exists a b : Point.t,
           In (a, b) (Polygon.iter2 P)
           /\ Point.ccw a b p = Point.CCW_ON_SEGMENT) ->
       Polygon.contains P p allow_on_edge = allow_on_edge)
      /\ ((forall a b : Point.t,
              In (a, b) (Polygon.iter2 P) ->
              Point.ccw a b p <> Point.CCW_ON_SEGMENT) ->
          (Polygon.contains P p allow_on_edge = true
           <-> Rabs (fsum (map (fun '(a, b) => Point.angle p a b)
                             (Polygon.iter2 P))) > EPS)))
  /\ (forall allow_on_edge : bool,
         Polygon.contains unit_square (Point.from_rect (1 / 2) (1 / 2))
           allow_on_edge = true)
  /\ (forall allow_on_edge : bool,
         Polygon.contains unit_square (Point.from_rect 2 2) allow_on_edge
         = false)
  /\ Polygon.contains unit_square (Point.from_rect 0 (1 / 2)) true = true
  /\ Polygon.contains unit_square (Point.from_rect 0 (1 / 2)) false = false.
Proof.
  pose proof EPS_pos as HE.
  split; [| split; [| split; [| split]]].
  - intros P p allow_on_edge. rewrite contains_spec.
    pose proof (has_point_on_edge_loop_true_iff (Polygon.iter2 P) p) as Hex.
    fold (Polygon.has_point_on_edge P p) in Hex.
    split.
    + intros Hsome. apply Hex in Hsome. rewrite Hsome. reflexivity.
    + intros Hnone.
      destruct (Polygon.has_point_on_edge P p).
      * destruct Hex as [Hex _]. destruct (Hex eq_refl) as (a & b & Hin & Hc).
        exfalso. exact (Hnone a b Hin Hc).
      * unfold Rgtb. apply Rltb_true_iff.
  - intros allow_on_edge. rewrite contains_spec.
    rewrite unit_square_centre_angles.
    unfold Polygon.has_point_on_edge. rewrite unit_square_edges. simpl.
    repeat ccw_by_det. simpl.
    unfold Rgtb. apply Rltb_true.
    pose proof PI2_1 as Hpi. rewrite Rabs_pos_eq by lra. unfold EPS. lra.
  - intros allow_on_edge. rewrite contains_spec.
    rewrite unit_square_outside_angles.
    unfold Polygon.has_point_on_edge. rewrite unit_square_edges. simpl.
    repeat ccw_by_det. simpl.
    unfold Rgtb. apply Rltb_false. rewrite Rabs_R0. lra.
  - rewrite contains_spec, unit_square_left_edge_midpoint. reflexivity.
  - rewrite contains_spec, unit_square_left_edge_midpoint. reflexivity.
Qed.

(** * Further properties of the geometry kernel *)

(** ** Projection onto a line *)

Lemma abs_sub_zero_iff (p q : Point.t) :
  Point.abs (Point.sub q p) = 0 <-> p = q.
Proof.
  unfold Point.abs. rewrite cabs_zero_iff.
  destruct p as [[px py]], q as [[qx qy]]. simpl. split.
  - intros [Hx Hy]. do 2 f_equal; lra.
  - intros H. injection H as -> ->. lra.
Qed.

(** X4.  [self.projection_point(p, q, allow_outer)] raises ZeroDivisionError
    exactly when p and q are the same point, whatever [allow_outer]; for
    different p and q it never raises. *)
Theorem projection_point_raises_iff_same_point :
  forall (self p q : Point.t) (allow_outer : bool),
    (Point.projection_point self p q allow_outer = Raise ZeroDivisionError
     <-> p = q)
    /\ ((exists r : option Point.t,
            Point.projection_point self p q allow_outer = Ok r)
        <-> p <> q).
Proof.
  intros self p q allow_outer.
  rewrite <- (abs_sub_zero_iff p q). unfold Point.projection_point, fdiv.
  destruct (Reqb_spec (Point.abs (Point.sub q p)) 0) as [H0 | Hn]; simpl.
  - split; [split; [intros _; exact H0 | reflexivity] |].
    split; [intros [r Hr]; discriminate | intros H; contradiction].
  - split.
    + split; [| intros H; contradiction].
      destruct (allow_outer || _); discriminate.
    + split; [intros _; exact Hn |]. intros _.
      destruct (allow_outer || _); eexists; reflexivity.
Qed.

(** ** Closest point and distances *)

(** X8.  On a segment with different endpoints, the closest point to the
    start point p1 is p1 itself, and the distance of p1 from the segment
    is 0. *)
Theorem closest_point_of_start_point :
  forall s : Segment.t,
    Segment.p1 s <> Segment.p2 s ->
    Segment.closest_point s (Segment.p1 s) = Ok (Segment.p1 s)
    /\ Segment.dist s (Segment.p1 s) = Ok 0.
Proof.
  pose proof EPS_pos as HE.
  intros s Hne.
  assert (Hn : Segment.norm s <> 0).
  { intros H0. apply Hne. apply segment_norm_zero_iff. exact H0. }
  assert (Hcp : Segment.closest_point s (Segment.p1 s) = Ok (Segment.p1 s)).
  { unfold Segment.closest_point. rewrite fdiv_nonzero by exact Hn. simpl.
    rewrite Rltb_true; [reflexivity |].
    replace (Point.dot (Point.sub (Segment.p1 s) (Segment.p1 s))
               (Point.sub (Segment.p2 s) (Segment.p1 s))) with 0
      by (unfold Point.dot, Point.sub, Point.x, Point.y; simpl; ring).
    unfold Rdiv. rewrite Rmult_0_l. exact HE. }
  split; [exact Hcp |].
  unfold Segment.dist. rewrite Hcp. simpl. f_equal.
  unfold Point.abs. apply cabs_zero_iff.
  unfold Point.sub, csub; simpl. lra.
Qed.

Lemma closest_point_of_start_point_witness :
  Point.from_rect 0 0 <> Point.from_rect 2 0
  /\ Segment.closest_point
       (Segment.Segment (Point.from_rect 0 0) (Point.from_rect 2 0))
       (Point.from_rect 0 0) = Ok (Point.from_rect 0 0)
  /\ Segment.dist
       (Segment.Segment (Point.from_rect 0 0) (Point.from_rect 2 0))
       (Point.from_rect 0 0) = Ok 0.
Proof.
  assert (Hpq : Point.from_rect 0 0 <> Point.from_rect 2 0).
  { intros H. injection H as H. lra. }
  split; [exact Hpq |].
  exact (closest_point_of_start_point
           (Segment.Segment (Point.from_rect 0 0) (Point.from_rect 2 0)) Hpq).
Defined.

(** X9.  [Point.dist] is never negative, is zero from a point to itself,
    and is symmetric; [p == q] holds exactly when the distance is below
    EPS. *)
Theorem point_dist_symmetric :
  forall p q : Point.t,
    0 <= Point.dist p q
    /\ Point.dist p p = 0
    /\ Point.dist p q = Point.dist q p
    /\ (Point.eq p q = true <-> Point.dist p q < EPS).
Proof.
  intros p q. unfold Point.dist, Point.eq. repeat split.
  - apply cabs_nonneg.
  - apply cabs_zero_iff. unfold csub; simpl. lra.
  - apply cabs_csub_sym.
  - apply Rltb_true_iff.
  - apply Rltb_true_iff.
Qed.

Lemma intersects_with_swap (s1 s2 : Segment.t) (allow_side : bool) :
  exists r : bool,
    Segment.intersects_with s1 s2 allow_side = Ok r
    /\ Segment.intersects_with s2 s1 allow_side = Ok r.
Proof.
  unfold Segment.intersects_with.
  set (l1 := Line.from_segment (Segment.p1 s1) (Segment.p2 s1)).
  set (l2 := Line.from_segment (Segment.p1 s2) (Segment.p2 s2)).
  rewrite (is_parallel_to_sym l2 l1), (intersection_point_sym l2 l1).
  destruct (Line.is_parallel_to l1 l2) eqn:Hpar.
  - eexists. split; [reflexivity |]. f_equal.
    destruct (Point.on_segment (Segment.p1 s2) _ _ _),
      (Point.on_segment (Segment.p2 s2) _ _ _),
      (Point.on_segment (Segment.p1 s1) _ _ _),
      (Point.on_segment (Segment.p2 s1) _ _ _); reflexivity.
  - destruct (not_parallel_intersection l1 l2 Hpar) as [p ->]. simpl.
    eexists. split; [reflexivity |]. f_equal. apply andb_comm.
Qed.

(** [Segment.dist] raises on a segment of length zero and otherwise returns
    a non-negative number, whatever the point. *)
Lemma segment_dist_cases (s : Segment.t) (p : Point.t) :
  (Segment.norm s = 0 /\ Segment.dist s p = Raise ZeroDivisionError)
  \/ (Segment.norm s <> 0 /\ exists d : R, Segment.dist s p = Ok d /\ 0 <= d).
Proof.
  unfold Segment.dist, Segment.closest_point, fdiv.
  destruct (Reqb_spec (Segment.norm s) 0) as [H0 | Hn]; simpl.
  - left. split; [exact H0 | reflexivity].
  - right. split; [exact Hn |].
    case_cmp; simpl; eexists; (split; [reflexivity | apply cabs_nonneg]).
Qed.

Lemma Rmin4_swap (a b c d : R) :
  Rmin (Rmin (Rmin a b) c) d = Rmin (Rmin (Rmin c d) a) b.
Proof.
  unfold Rmin. repeat (destruct (Rle_dec _ _)); lra.
Qed.

(** X10.  [dist_segment] is symmetric, s1.dist_segment(s2) and
    s2.dist_segment(s1) being the same value or the same exception, and a
    returned distance is never negative. *)
Theorem dist_segment_symmetric :
  forall s1 s2 : Segment.t,
    Segment.dist_segment s1 s2 = Segment.dist_segment s2 s1
    /\ forall d : R, Segment.dist_segment s1 s2 = Ok d -> 0 <= d.
Proof.
  intros s1 s2. unfold Segment.dist_segment.
  destruct (intersects_with_swap s1 s2 true) as (hit & -> & ->). simpl.
  destruct hit.
  - split; [reflexivity |]. intros d Hd. injection Hd as <-. lra.
  - destruct (segment_dist_cases s1 (Segment.p1 s2)) as [[Z1 ->] | [N1 (d1 & -> & P1)]];
      destruct (segment_dist_cases s1 (Segment.p2 s2)) as [[Z1' ->] | [N1' (d2 & -> & P2)]];
      try contradiction;
      destruct (segment_dist_cases s2 (Segment.p1 s1)) as [[Z2 ->] | [N2 (d3 & -> & P3)]];
      destruct (segment_dist_cases s2 (Segment.p2 s1)) as [[Z2' ->] | [N2' (d4 & -> & P4)]];
      try contradiction; simpl;
      (split; [try reflexivity | intros d Hd; try discriminate Hd]).
    + f_equal. apply Rmin4_swap.
    + injection Hd as <-. unfold Rmin. repeat (destruct (Rle_dec _ _)); lra.
Qed.

(** X11.  [dist_segment] returns 0 for intersecting segments, also when one
    of them has length zero; for segments that do not intersect it raises
    ZeroDivisionError exactly when one of the two has identical endpoints. *)
Theorem dist_segment_edge_cases :
  forall s1 s2 : Segment.t,
    (Segment.intersects_with s1 s2 true = Ok true ->
     Segment.dist_segment s1 s2 = Ok 0)
    /\ (Segment.intersects_with s1 s2 true = Ok false ->
        (Segment.dist_segment s1 s2 = Raise ZeroDivisionError
         <-> Segment.p1 s1 = Segment.p2 s1 \/ Segment.p1 s2 = Segment.p2 s2)).
Proof.
  intros s1 s2. unfold Segment.dist_segment. split; intros ->; simpl.
  - reflexivity.
  - rewrite <- !segment_norm_zero_iff.
    destruct (segment_dist_cases s1 (Segment.p1 s2)) as [[Z1 ->] | [N1 (d1 & -> & P1)]];
      destruct (segment_dist_cases s1 (Segment.p2 s2)) as [[Z1' ->] | [N1' (d2 & -> & P2)]];
      try contradiction;
      destruct (segment_dist_cases s2 (Segment.p1 s1)) as [[Z2 ->] | [N2 (d3 & -> & P3)]];
      destruct (segment_dist_cases s2 (Segment.p2 s1)) as [[Z2' ->] | [N2' (d4 & -> & P4)]];
      try contradiction; simpl;
      (split; [intros H; try discriminate H; tauto | intros H; try reflexivity; tauto]).
Qed.

(** ** Points on a segment *)

(** X12.  [self.on_segment(p, q, allow_side)] does not depend on the order
    of the two endpoints.  An endpoint itself is on the segment when
    [allow_side] is true and is not when [allow_side] is false. *)
Theorem on_segment_endpoints :
  forall (self p q : Point.t) (allow_side : bool),
    Point.on_segment self p q allow_side = Point.on_segment self q p allow_side
    /\ Point.on_segment p p q true = true
    /\ Point.on_segment q p q true = true
    /\ Point.on_segment p p q false = false
    /\ Point.on_segment q p q false = false.
Proof.
  pose proof EPS_pos as HE.
  assert (Hrefl : forall a : Point.t, Point.eq a a = true).
  { intros a. unfold Point.eq. apply Rltb_true.
    apply cabs_lt; [exact HE |]. unfold csub; simpl. nra. }
  intros self p q allow_side. split; [| split; [| split; [| split]]].
  - unfold Point.on_segment. rewrite (orb_comm (Point.eq self p)).
    replace (Point.det (Point.sub q self) (Point.sub p self))
      with (- Point.det (Point.sub p self) (Point.sub q self))
      by (unfold Point.det; ring).
    replace (Point.dot (Point.sub q self) (Point.sub p self))
      with (Point.dot (Point.sub p self) (Point.sub q self))
      by (unfold Point.dot; ring).
    rewrite Rabs_Ropp. reflexivity.
  - unfold Point.on_segment, Point.det, Point.dot, Point.sub, Point.x, Point.y.
    simpl. rewrite !Rltb_true; [reflexivity | lra |].
    match goal with |- Rabs ?e < _ => replace e with 0 by ring end.
    rewrite Rabs_R0. exact HE.
  - unfold Point.on_segment, Point.det, Point.dot, Point.sub, Point.x, Point.y.
    simpl. rewrite !Rltb_true; [reflexivity | lra |].
    match goal with |- Rabs ?e < _ => replace e with 0 by ring end.
    rewrite Rabs_R0. exact HE.
  - unfold Point.on_segment. rewrite Hrefl. reflexivity.
  - unfold Point.on_segment. rewrite Hrefl, orb_true_r. reflexivity.
Qed.

(** ** Lines through two points and lines given by a gradient *)


(** X14.  [Line.from_gradient(m, k)] is the line y = m*x + k, and reading
    back its gradient and intercept returns m and k. *)
Theorem from_gradient_round_trip :
  forall m k : R,
    let l := Line.from_gradient m k in
    Line.gradient l = Ok (Fin m)
    /\ Line.intercept l = Ok (Fin k)
    /\ forall x y : R,
        Line.a l * x + Line.b l * y + Line.c l = 0 <-> y = m * x + k.
Proof.
  intros m k. simpl. unfold Line.gradient, Line.intercept, Line.from_gradient.
  simpl.
  destruct (Reqb_spec (-1) 0) as [H | _]; [lra |].
  rewrite !fdiv_nonzero by lra. simpl.
  split; [do 2 f_equal; field |]. split; [do 2 f_equal; field |].
  intros x y. split; intros H; lra.
Qed.

(** X15.  Parallelism and orthogonality of lines are symmetric.  For the
    lines through two pairs of points, [is_parallel_to] holds exactly when
    the cross product of the two direction vectors is within EPS of zero,
    and [is_orthogonal_to] exactly when their dot product is. *)
Theorem parallel_orthogonal_by_direction :
  (forall l1 l2 : Line.t,
      Line.is_parallel_to l1 l2 = Line.is_parallel_to l2 l1
      /\ Line.is_orthogonal_to l1 l2 = Line.is_orthogonal_to l2 l1)
  /\ (forall p1 p2 q1 q2 : Point.t,
         let l1 := Line.from_segment p1 p2 in
         let l2 := Line.from_segment q1 q2 in
         (Line.is_parallel_to l1 l2 = true
          <-> Rabs (Point.det (Point.sub p2 p1) (Point.sub q2 q1)) < EPS)
         /\ (Line.is_orthogonal_to l1 l2 = true
             <-> Rabs (Point.dot (Point.sub p2 p1) (Point.sub q2 q1)) < EPS)).
Proof.
  split.
  - intros l1 l2. split; [apply is_parallel_to_sym |].
    unfold Line.is_orthogonal_to, Point.dot, Point.from_rect, Point.x, Point.y.
    simpl. do 2 f_equal. ring.
  - intros [[x1 y1]] [[x2 y2]] [[u1 v1]] [[u2 v2]]. simpl.
    unfold Line.is_parallel_to, Line.is_orthogonal_to, Line.from_segment,
      Point.det, Point.dot, Point.sub, Point.from_rect, Point.x, Point.y.
    simpl. rewrite !Rltb_true_iff. split.
    + replace ((y2 - y1) * (u1 - u2) - (x1 - x2) * (v2 - v1))
        with ((x2 - x1) * (v2 - v1) - (y2 - y1) * (u2 - u1)) by ring.
      tauto.
    + replace ((y2 - y1) * (v2 - v1) + (x1 - x2) * (u1 - u2))
        with ((x2 - x1) * (u2 - u1) + (y2 - y1) * (v2 - v1)) by ring.
      tauto.
Qed.

(** ** More on the orientation predicate *)

Lemma ccw_start_point (a b : Point.t) : Point.ccw a b a = Point.CCW_ON_SEGMENT.
Proof.
  pose proof EPS_pos as HE.
  assert (H0 : Point.norm (Point.sub a a) = 0).
  { unfold Point.norm. apply cabs_zero_iff. unfold Point.sub, csub; simpl. lra. }
  pose proof (cabs_nonneg (Point.c (Point.sub b a))) as Hb.
  fold (Point.norm (Point.sub b a)) in Hb.
  apply ccw_between.
  - unfold Point.det, Point.sub, Point.x, Point.y; simpl.
    match goal with |- _ <= ?e <= _ => replace e with 0 by ring end. lra.
  - unfold Point.dot, Point.sub, Point.x, Point.y; simpl.
    match goal with |- _ <= ?e => replace e with 0 by ring end. lra.
  - rewrite H0. lra.
Qed.

Lemma ccw_end_point (a b : Point.t) : Point.ccw a b b = Point.CCW_ON_SEGMENT.
Proof.
  pose proof EPS_pos as HE.
  apply ccw_between.
  - unfold Point.det, Point.sub, Point.x, Point.y; simpl.
    match goal with |- _ <= ?e <= _ => replace e with 0 by ring end. lra.
  - unfold Point.dot, Point.sub, Point.x, Point.y; simpl.
    pose proof (Rle_0_sqr (real (Point.c b) - real (Point.c a))) as Hx.
    pose proof (Rle_0_sqr (imag (Point.c b) - imag (Point.c a))) as Hy.
    unfold Rsqr in Hx, Hy. lra.
  - lra.
Qed.

(** X16.  Exchanging the last two arguments of [ccw] exchanges
    COUNTER_CLOCKWISE and CLOCKWISE, and both endpoints of a segment are
    classified ON_SEGMENT, also for a segment of length zero. *)
Theorem ccw_swap_and_endpoints :
  forall a b c : Point.t,
    (Point.ccw a b c = Point.CCW_COUNTER_CLOCKWISE
     <-> Point.ccw a c b = Point.CCW_CLOCKWISE)
    /\ (Point.ccw a b c = Point.CCW_CLOCKWISE
        <-> Point.ccw a c b = Point.CCW_COUNTER_CLOCKWISE)
    /\ Point.ccw a b a = Point.CCW_ON_SEGMENT
    /\ Point.ccw a b b = Point.CCW_ON_SEGMENT.
Proof.
  pose proof EPS_pos as HE.
  intros a b c.
  split; [| split; [| split; [apply ccw_start_point | apply ccw_end_point]]].
  - unfold Point.ccw, Rgtb.
    replace (Point.det (Point.sub c a) (Point.sub b a))
      with (- Point.det (Point.sub b a) (Point.sub c a))
      by (unfold Point.det; ring).
    case_cmp; split; intros; try discriminate; try lra; reflexivity.
  - unfold Point.ccw, Rgtb.
    replace (Point.det (Point.sub c a) (Point.sub b a))
      with (- Point.det (Point.sub b a) (Point.sub c a))
      by (unfold Point.det; ring).
    case_cmp; split; intros; try discriminate; try lra; reflexivity.
Qed.

(** X17.  The triangle area [a.area(b, c)] exceeds EPS/2 exactly when
    [ccw(a, b, c)] is COUNTER_CLOCKWISE or CLOCKWISE: both are decided by the
    cross product of b - a and c - a. *)
Theorem triangle_area :
  forall a b c : Point.t,
    Point.area a b c > EPS / 2
    <-> Point.ccw a b c = Point.CCW_COUNTER_CLOCKWISE
        \/ Point.ccw a b c = Point.CCW_CLOCKWISE.
Proof.
  pose proof EPS_pos as HE.
  intros a b c.
  unfold Point.area, Point.ccw, Rgtb.
  set (d := Point.det (Point.sub b a) (Point.sub c a)).
  unfold Rdiv. rewrite Rabs_mult, (Rabs_pos_eq (/ 2)) by lra.
  unfold Rabs. destruct (Rcase_abs d);
    case_cmp; split; intros H; try (destruct H as [H | H]);
    try discriminate; try lra; tauto.
Qed.

(** ** Vertices and small polygons *)

Lemma combine_In_left {A B : Type} (l : list A) (l' : list B) (v : A) :
  length l = length l' -> In v l -> exists b : B, In (v, b) (combine l l').
Proof.
  revert l'. induction l as [| a l IH]; intros [| b l'] Hlen Hin;
    simpl in *; try contradiction; try discriminate.
  destruct Hin as [-> | Hin].
  - exists b. left. reflexivity.
  - destruct (IH l' ltac:(lia) Hin) as [b' Hb']. exists b'. right. exact Hb'.
Qed.

(** X18.  Every vertex of a polygon is on one of its edges:
    [has_point_on_edge(v)] is true and [contains(v, allow_on_edge)] returns
    [allow_on_edge]. *)
Theorem polygon_vertex_on_edge :
  forall (P : Polygon.t) (v : Point.t),
    In v (Polygon.points P) ->
    Polygon.has_point_on_edge P v = true
    /\ forall allow_on_edge : bool,
        Polygon.contains P v allow_on_edge = allow_on_edge.
Proof.
  intros P v Hin.
  assert (Hedge : Polygon.has_point_on_edge P v = true).
  { apply has_point_on_edge_loop_true_iff.
    destruct (combine_In_left (Polygon.points P)
                (skipn 1 (Polygon.points P) ++ firstn 1 (Polygon.points P)) v)
      as [b Hb]; [rewrite rotate_length; reflexivity | exact Hin |].
    exists v, b. split; [exact Hb | apply ccw_start_point]. }
  split; [exact Hedge |].
  intros allow_on_edge. rewrite contains_spec, Hedge. reflexivity.
Qed.

Lemma polygon_vertex_on_edge_witness :
  In (Point.from_rect 1 1) (Polygon.points unit_square)
  /\ Polygon.has_point_on_edge unit_square (Point.from_rect 1 1) = true
  /\ forall allow_on_edge : bool,
      Polygon.contains unit_square (Point.from_rect 1 1) allow_on_edge
      = allow_on_edge.
Proof.
  assert (Hin : In (Point.from_rect 1 1) (Polygon.points unit_square))
    by (simpl; right; right; left; reflexivity).
  split; [exact Hin |]. apply polygon_vertex_on_edge. exact Hin.
Defined.

(** X19.  A polygon with fewer than three vertices has area 0 and is not
    convex under any combination of the two flags; without vertices it
    has no point on an edge and contains no point. *)
Theorem small_polygon_degenerate :
  forall P : Polygon.t,
    (length (Polygon.points P) < 3)%nat ->
    Polygon.area P = 0
    /\ (forall allow_straight allow_collapsed : bool,
           Polygon.is_convex P allow_straight allow_collapsed = false)
    /\ (Polygon.points P = [] ->
        forall (p : Point.t) (allow_on_edge : bool),
          Polygon.has_point_on_edge P p = false
          /\ Polygon.contains P p allow_on_edge = false).
Proof.
  pose proof EPS_pos as HE.
  intros [pts] Hlen. simpl in Hlen.
  destruct pts as [| a [| b [| c pts]]]; simpl in Hlen; try lia.
  - split; [| split].
    + unfold Polygon.area, fsum; simpl. rewrite Rabs_R0. lra.
    + intros [] []; vm_compute; reflexivity.
    + intros _ p allow_on_edge. split; [reflexivity |].
      unfold Polygon.contains, Polygon.iter2, fsum; simpl.
      unfold Rgtb. apply Rltb_false. rewrite Rabs_R0. lra.
  - split; [| split]; [| | discriminate].
    + unfold Polygon.area, Polygon.iter2, fsum; simpl.
      replace (Point.det a a + 0) with 0 by (unfold Point.det; ring).
      rewrite Rabs_R0. lra.
    + intros allow_straight allow_collapsed.
      unfold Polygon.is_convex, Polygon.iter3; simpl.
      rewrite ccw_start_point.
      destruct allow_straight, allow_collapsed; vm_compute; reflexivity.
  - split; [| split]; [| | discriminate].
    + unfold Polygon.area, Polygon.iter2, fsum; simpl.
      replace (Point.det a b + (Point.det b a + 0)) with 0
        by (unfold Point.det; ring).
      rewrite Rabs_R0. lra.
    + intros allow_straight allow_collapsed.
      unfold Polygon.is_convex, Polygon.iter3; simpl.
      rewrite !ccw_start_point.
      destruct allow_straight, allow_collapsed; vm_compute; reflexivity.
Qed.

Lemma small_polygon_degenerate_witness :
  (length [Point.from_rect 0 0; Point.from_rect 1 0] < 3)%nat
  /\ Polygon.area (Polygon.Polygon [Point.from_rect 0 0; Point.from_rect 1 0]) = 0
  /\ forall allow_straight allow_collapsed : bool,
      Polygon.is_convex (Polygon.Polygon [Point.from_rect 0 0; Point.from_rect 1 0])
        allow_straight allow_collapsed = false.
Proof.
  destruct (small_polygon_degenerate
              (Polygon.Polygon [Point.from_rect 0 0; Point.from_rect 1 0]))
    as (Ha & Hc & _); [simpl; lia |].
  split; [simpl; lia | split; assumption].
Defined.

(** ** The shoelace sum *)

Lemma path_det_sum_nil (h e : Point.t) : path_det_sum h [] e = Point.det h e.
Proof. unfold path_det_sum, fsum. simpl. ring. Qed.

Lemma path_det_sum_cons (h a : Point.t) (t : list Point.t) (e : Point.t) :
  path_det_sum h (a :: t) e = Point.det h a + path_det_sum a t e.
Proof. reflexivity. Qed.

Lemma path_det_sum_app (h a : Point.t) (t1 t2 : list Point.t) (e : Point.t) :
  path_det_sum h (t1 ++ a :: t2) e = path_det_sum h t1 a + path_det_sum a t2 e.
Proof.
  revert h. induction t1 as [| b t1 IH]; intros h; simpl.
  - rewrite path_det_sum_cons, path_det_sum_nil. reflexivity.
  - rewrite !path_det_sum_cons, IH. ring.
Qed.

Lemma polygon_area_path (h : Point.t) (t : list Point.t) :
  Polygon.area (Polygon.Polygon (h :: t)) = Rabs (path_det_sum h t h) / 2.
Proof.
  unfold Polygon.area, Polygon.iter2, path_det_sum. simpl.
  rewrite drop_0. reflexivity.
Qed.

Lemma path_det_sum_rev (h : Point.t) (t : list Point.t) (e : Point.t) :
  path_det_sum e (rev t) h = - path_det_sum h t e.
Proof.
  revert h. induction t as [| a t IH]; intros h; simpl.
  - rewrite !path_det_sum_nil. unfold Point.det. ring.
  - rewrite path_det_sum_app, path_det_sum_cons, IH, path_det_sum_nil.
    unfold Point.det. ring.
Qed.

(** X21.  [Polygon.area] does not depend on the direction in which the
    vertices are listed nor on the vertex the list starts with: reversing
    the vertex list, or moving its first vertex to the end, leaves the area
    unchanged. *)
Theorem polygon_area_orientation_independent :
  forall l : list Point.t,
    Polygon.area (Polygon.Polygon (rev l)) = Polygon.area (Polygon.Polygon l)
    /\ Polygon.area (Polygon.Polygon (skipn 1 l ++ firstn 1 l))
       = Polygon.area (Polygon.Polygon l).
Proof.
  intros [| h t]; [split; reflexivity |]. split.
  - destruct (rev t) as [| x r] eqn:Hrev.
    + assert (t = []) as -> by (apply (f_equal (@rev Point.t)) in Hrev;
                               rewrite rev_involutive in Hrev; exact Hrev).
      reflexivity.
    + assert (Ht : t = rev r ++ [x]).
      { apply (f_equal (@rev Point.t)) in Hrev. rewrite rev_involutive in Hrev.
        exact Hrev. }
      simpl. rewrite Hrev. simpl. rewrite Ht, !polygon_area_path.
      rewrite !path_det_sum_app, !path_det_sum_nil.
      assert (Hp : path_det_sum x r h = - path_det_sum h (rev r) x).
      { rewrite <- path_det_sum_rev, rev_involutive. reflexivity. }
      rewrite Hp.
      replace (- path_det_sum h (rev r) x + Point.det h x)
        with (- (path_det_sum h (rev r) x + Point.det x h))
        by (unfold Point.det; ring).
      rewrite Rabs_Ropp. reflexivity.
  - simpl. rewrite drop_0. destruct t as [| a t]; [reflexivity |].
    simpl. rewrite !polygon_area_path, path_det_sum_app, path_det_sum_nil,
      path_det_sum_cons.
    f_equal. f_equal. ring.
Qed.

(** * Properties of the list utilities *)

(** ** Running aggregates *)

Section Scan.

Context {A : Type} (op : A -> A -> A) (le : A -> A -> Prop).
Hypothesis le_trans : forall a b c : A, le a b -> le b c -> le a c.
Hypothesis op_bound_new : forall v cm : A, le v (op v cm).
Hypothesis op_bound_old : forall v cm : A, le cm (op v cm).
Hypothesis op_select : forall v cm : A, op v cm = v \/ op v cm = cm.

Lemma scan_length (it : list A) (cm : A) : length (scan op it cm) = length it.
Proof. revert cm. induction it as [| v it IH]; intros cm; simpl; [| rewrite IH]; reflexivity. Qed.

(** Entry [i] of the scan bounds the start value and the entries 0..i of the
    input, and is one of them. *)
Lemma scan_extremum (it : list A) (first d : A) (i : nat) :
  (i < length it)%nat ->
  let m := nth i (scan op it first) d in
  le first m
  /\ (forall j : nat, (j <= i)%nat -> le (nth j it d) m)
  /\ (m = first \/ exists j : nat, (j <= i)%nat /\ m = nth j it d).
Proof.
  revert first i. induction it as [| v it IH]; intros first i Hi; simpl in Hi;
    [lia |].
  destruct i as [| i]; simpl.
  - split; [apply op_bound_old |]. split.
    + intros j Hj. assert (j = 0)%nat as -> by lia. apply op_bound_new.
    + destruct (op_select v first) as [-> | ->]; [right | left; reflexivity].
      exists 0%nat. split; [lia | reflexivity].
  - destruct (IH (op v first) i ltac:(lia)) as (Hfirst & Hall & Hsel).
    split; [exact (le_trans _ _ _ (op_bound_old v first) Hfirst) |]. split.
    + intros [| j] Hj.
      * exact (le_trans _ _ _ (op_bound_new v first) Hfirst).
      * apply Hall. lia.
    + destruct Hsel as [Hsel | (j & Hj & Hsel)].
      * rewrite Hsel. destruct (op_select v first) as [-> | ->];
          [right | left; reflexivity].
        exists 0%nat. split; [lia | reflexivity].
      * right. exists (S j). split; [lia | exact Hsel].
Qed.

End Scan.

Lemma cummax_loop_scan (it : list ListPy.num) (cm : ListPy.num)
  (ret : list ListPy.num) :
  ListPy.cummax_loop it cm ret = ret ++ scan ListPy.num_max it cm.
Proof.
  revert cm ret. induction it as [| v it IH]; intros cm ret; simpl.
  - rewrite app_nil_r. reflexivity.
  - rewrite IH, <- app_assoc. reflexivity.
Qed.

Lemma cummin_loop_scan (it : list ListPy.num) (cm : ListPy.num)
  (ret : list ListPy.num) :
  ListPy.cummin_loop it cm ret = ret ++ scan ListPy.num_min it cm.
Proof.
  revert cm ret. induction it as [| v it IH]; intros cm ret; simpl.
  - rewrite app_nil_r. reflexivity.
  - rewrite IH, <- app_assoc. reflexivity.
Qed.

Lemma cumsum_loop_scan (it : list Z) (cs : Z) (ret : list Z) :
  ListPy.cumsum_loop it cs ret = ret ++ scan (fun v cs => (cs + v)%Z) it cs.
Proof.
  revert cs ret. induction it as [| v it IH]; intros cs ret; simpl.
  - rewrite app_nil_r. reflexivity.
  - rewrite IH, <- app_assoc. reflexivity.
Qed.

Lemma num_le_refl (a : ListPy.num) : num_le a a.
Proof. unfold num_le. destruct a; simpl; try reflexivity. apply Z.ltb_irrefl. Qed.

Lemma num_le_trans (a b c : ListPy.num) : num_le a b -> num_le b c -> num_le a c.
Proof.
  unfold num_le. destruct a, b, c; simpl; intros H1 H2;
    try reflexivity; try discriminate.
  apply Z.ltb_ge in H1, H2. apply Z.ltb_ge. lia.
Qed.

Lemma num_max_bounds (v cm : ListPy.num) :
  num_le v (ListPy.num_max v cm) /\ num_le cm (ListPy.num_max v cm)
  /\ (ListPy.num_max v cm = v \/ ListPy.num_max v cm = cm).
Proof.
  unfold ListPy.num_max, num_le.
  destruct (ListPy.num_ltb v cm) eqn:Hlt.
  - split; [| split; [apply num_le_refl | right; reflexivity]].
    destruct v, cm; simpl in *; try reflexivity; try discriminate.
    apply Z.ltb_lt in Hlt. apply Z.ltb_ge. lia.
  - split; [apply num_le_refl | split; [exact Hlt | left; reflexivity]].
Qed.

Lemma num_min_bounds (v cm : ListPy.num) :
  num_le (ListPy.num_min v cm) v /\ num_le (ListPy.num_min v cm) cm
  /\ (ListPy.num_min v cm = v \/ ListPy.num_min v cm = cm).
Proof.
  unfold ListPy.num_min, num_le.
  destruct (ListPy.num_ltb cm v) eqn:Hlt.
  - split; [| split; [apply num_le_refl | right; reflexivity]].
    destruct v, cm; simpl in *; try reflexivity; try discriminate.
    apply Z.ltb_lt in Hlt. apply Z.ltb_ge. lia.
  - split; [apply num_le_refl | split; [exact Hlt | left; reflexivity]].
Qed.

(** X22.  [cummax(it, first)] has one entry per element of [it]; entry i is
    the maximum of [first] and it[0..i]: it is at least [first] and at least
    each of it[0], ..., it[i], and it is one of these values.  With the
    default [first = -inf], the list 3,1,4,1,5,9,2,6 gives 3,3,4,4,5,9,9,9,
    as the module asserts. *)
Theorem cummax_prefix_maximum :
  (forall (it : list ListPy.num) (first : ListPy.num),
      length (ListPy.cummax it first) = length it
      /\ forall i : nat, (i < length it)%nat ->
           let m := nth i (ListPy.cummax it first) first in
           num_le first m
           /\ (forall j : nat, (j <= i)%nat -> num_le (nth j it first) m)
           /\ (m = first
               \/ exists j : nat, (j <= i)%nat /\ m = nth j it first))
  /\ ListPy.cummax (map ListPy.Int [3; 1; 4; 1; 5; 9; 2; 6]%Z) ListPy.NegInf
     = map ListPy.Int [3; 3; 4; 4; 5; 9; 9; 9]%Z.
Proof.
  split; [| reflexivity].
  intros it first. unfold ListPy.cummax. rewrite cummax_loop_scan. simpl.
  split; [apply scan_length |].
  intros i Hi.
  apply (scan_extremum ListPy.num_max num_le num_le_trans);
    [intros v cm; apply num_max_bounds | intros v cm; apply num_max_bounds
    | intros v cm; apply num_max_bounds | exact Hi].
Qed.

(** X23.  [cummin(it, first)] has one entry per element of [it]; entry i is
    the minimum of [first] and it[0..i]: it is at most [first] and at most
    each of it[0], ..., it[i], and it is one of these values.  With the
    default [first = +inf], the list 3,1,4,1,5,9,2,6 gives 3,1,1,1,1,1,1,1,
    as the module asserts. *)
Theorem cummin_prefix_minimum :
  (forall (it : list ListPy.num) (first : ListPy.num),
      length (ListPy.cummin it first) = length it
      /\ forall i : nat, (i < length it)%nat ->
           let m := nth i (ListPy.cummin it first) first in
           num_le m first
           /\ (forall j : nat, (j <= i)%nat -> num_le m (nth j it first))
           /\ (m = first
               \/ exists j : nat, (j <= i)%nat /\ m = nth j it first))
  /\ ListPy.cummin (map ListPy.Int [3; 1; 4; 1; 5; 9; 2; 6]%Z) ListPy.PosInf
     = map ListPy.Int [3; 1; 1; 1; 1; 1; 1; 1]%Z.
Proof.
  split; [| reflexivity].
  intros it first. unfold ListPy.cummin. rewrite cummin_loop_scan. simpl.
  split; [apply scan_length |].
  intros i Hi.
  apply (scan_extremum ListPy.num_min (fun a b => num_le b a));
    [intros a b c Hab Hbc; exact (num_le_trans _ _ _ Hbc Hab)
    | intros v cm; apply num_min_bounds | intros v cm; apply num_min_bounds
    | intros v cm; apply num_min_bounds | exact Hi].
Qed.

Lemma scan_sum_nth (it : list Z) (cs : Z) (i : nat) :
  (i < length it)%nat ->
  nth i (scan (fun v cs => (cs + v)%Z) it cs) 0%Z
  = (cs + zsum (firstn (S i) it))%Z.
Proof.
  revert cs i. induction it as [| v it IH]; intros cs i Hi; simpl in Hi; [lia |].
  destruct i as [| i].
  - unfold zsum. simpl. lia.
  - change (nth (S i) (scan _ (v :: it) cs) 0%Z)
      with (nth i (scan (fun v cs => (cs + v)%Z) it (cs + v)%Z) 0%Z).
    rewrite IH by lia. rewrite (firstn_cons (S i) v it). unfold zsum. simpl. lia.
Qed.

(** X24.  [cumsum(it)] has one entry per element of [it]; entry i is the sum
    it[0] + ... + it[i], so the first entry is it[0] and the difference of
    two neighbouring entries gives back the element of [it] at that place.
    The list 3,1,4,1,5,9,2,6 gives 3,4,8,9,14,23,25,31, as the module
    asserts. *)
Theorem cumsum_prefix_sums :
  (forall it : list Z,
      length (ListPy.cumsum it) = length it
      /\ (forall i : nat, (i < length it)%nat ->
            nth i (ListPy.cumsum it) 0%Z = zsum (firstn (S i) it))
      /\ (forall i : nat, (S i < length it)%nat ->
            (nth (S i) (ListPy.cumsum it) 0 - nth i (ListPy.cumsum it) 0)%Z
            = nth (S i) it 0%Z))
  /\ ListPy.cumsum [3; 1; 4; 1; 5; 9; 2; 6]%Z
     = [3; 4; 8; 9; 14; 23; 25; 31]%Z.
Proof.
  split; [| reflexivity].
  intros it. unfold ListPy.cumsum. rewrite cumsum_loop_scan. simpl.
  split; [apply scan_length | split].
  - intros i Hi. rewrite scan_sum_nth by exact Hi. lia.
  - intros i Hi. rewrite !scan_sum_nth by lia.
    assert (Hstep : forall (l : list Z) (k : nat), (k < length l)%nat ->
              zsum (firstn (S k) l) = (zsum (firstn k l) + nth k l 0)%Z).
    { intros l. induction l as [| a l IHl]; intros k Hk; simpl in Hk; [lia |].
      destruct k as [| k].
      - unfold zsum. simpl. lia.
      - rewrite (firstn_cons (S k) a l), (firstn_cons k a l).
        change (zsum (a :: firstn (S k) l)) with (a + zsum (firstn (S k) l))%Z.
        change (zsum (a :: firstn k l)) with (a + zsum (firstn k l))%Z.
        rewrite IHl by lia. simpl. lia. }
    rewrite (Hstep it (S i)) by lia. lia.
Qed.

(** ** Sorting the indices *)

Lemma pair_ltb_spec (key : option (Z -> Z)) (reverse : bool) (t u : Z * nat) :
  reflect (pair_lt key reverse t u) (ListPy.pair_ltb key reverse t u).
Proof.
  apply iff_reflect. unfold pair_lt, ListPy.pair_ltb.
  destruct key as [k |], reverse;
    rewrite ?orb_true_iff, ?andb_true_iff, ?Z.ltb_lt, ?Z.eqb_eq, ?Nat.ltb_lt;
    reflexivity.
Qed.

Lemma pair_lt_trans (key : option (Z -> Z)) (reverse : bool) (t u v : Z * nat) :
  pair_lt key reverse t u -> pair_lt key reverse u v -> pair_lt key reverse t v.
Proof. unfold pair_lt. destruct key, reverse; lia. Qed.

Lemma pair_lt_neg_trans (key : option (Z -> Z)) (reverse : bool)
  (t u v : Z * nat) :
  ~ pair_lt key reverse t u -> ~ pair_lt key reverse u v ->
  ~ pair_lt key reverse t v.
Proof. unfold pair_lt. destruct key, reverse; lia. Qed.

Lemma insert_sorted_perm (ltb : Z * nat -> Z * nat -> bool) (t : Z * nat)
  (l : list (Z * nat)) :
  Permutation (ListPy.insert_sorted ltb t l) (t :: l).
Proof.
  induction l as [| u l IH]; simpl; [reflexivity |].
  destruct (ltb u t); [| reflexivity].
  rewrite IH. apply perm_swap.
Qed.

Lemma sorted_perm (ltb : Z * nat -> Z * nat -> bool) (l : list (Z * nat)) :
  Permutation (ListPy.sorted ltb l) l.
Proof.
  induction l as [| t l IH]; simpl; [reflexivity |].
  rewrite insert_sorted_perm, IH. reflexivity.
Qed.

Lemma map_snd_combine {A B : Type} (l : list A) (l' : list B) :
  length l = length l' -> map snd (combine l l') = l'.
Proof.
  revert l'. induction l as [| a l IH]; intros [| b l'] Hlen; simpl in *;
    try discriminate; [reflexivity |].
  f_equal. apply IH. lia.
Qed.

(** X25.  For every list, key and direction, [argsort] returns a
    permutation of the indices 0, ..., len(li) - 1. *)
Theorem argsort_permutation :
  forall (li : list Z) (key : option (Z -> Z)) (reverse : bool),
    Permutation (ListPy.argsort li key reverse) (seq 0 (length li)).
Proof.
  intros li key reverse. unfold ListPy.argsort.
  rewrite sorted_perm. unfold ListPy.enumerate.
  rewrite map_snd_combine by (rewrite length_seq; reflexivity). reflexivity.
Qed.

Lemma insert_sorted_stable (key : option (Z -> Z)) (reverse : bool)
  (t : Z * nat) (l : list (Z * nat)) :
  StronglySorted (stable_before key reverse) l ->
  Forall (fun u => (snd t < snd u)%nat) l ->
  StronglySorted (stable_before key reverse)
    (ListPy.insert_sorted (ListPy.pair_ltb key reverse) t l).
Proof.
  induction l as [| u l IH]; intros Hs Hidx; simpl.
  - repeat constructor.
  - apply StronglySorted_inv in Hs. destruct Hs as [Hs Hu].
    apply Forall_cons_1 in Hidx. destruct Hidx as [Htu Hidx].
    destruct (pair_ltb_spec key reverse u t) as [Hlt | Hnlt].
    + constructor; [apply IH; assumption |].
      apply (Permutation_Forall (Permutation_sym (insert_sorted_perm _ t l))).
      constructor; [left; exact Hlt | exact Hu].
    + constructor; [constructor; assumption |].
      constructor; [right; split; assumption |].
      rewrite Forall_forall in Hu, Hidx |- *. intros v Hv.
      specialize (Hu v Hv). specialize (Hidx v Hv).
      destruct (pair_ltb_spec key reverse t v) as [Htv | Hntv];
        [left; exact Htv |].
      right. split; [| exact Hidx]. intros Hvt.
      destruct Hu as [Huv | [Hnvu _]].
      * apply Hnlt. exact (pair_lt_trans _ _ _ _ _ Huv Hvt).
      * exact (pair_lt_neg_trans _ _ _ _ _ Hnvu Hnlt Hvt).
Qed.

Lemma sorted_stable (key : option (Z -> Z)) (reverse : bool)
  (l : list (Z * nat)) :
  StronglySorted (fun t u => (snd t < snd u)%nat) l ->
  StronglySorted (stable_before key reverse)
    (ListPy.sorted (ListPy.pair_ltb key reverse) l).
Proof.
  induction l as [| t l IH]; intros Hs; simpl; [constructor |].
  apply StronglySorted_inv in Hs. destruct Hs as [Hs Ht].
  apply insert_sorted_stable; [apply IH; exact Hs |].
  exact (Permutation_Forall (Permutation_sym (sorted_perm _ l)) Ht).
Qed.

(** The pairs that [argsort] sorts carry increasing indices, and each pair
    is an element of the list together with its index. *)
Lemma combine_seq_indexed (l : list Z) (s : nat) :
  StronglySorted (fun t u => (snd t < snd u)%nat) (combine l (seq s (length l)))
  /\ Forall (fun t => (s <= snd t)%nat /\ fst t = nth (snd t - s) l 0%Z)
       (combine l (seq s (length l))).
Proof.
  revert s. induction l as [| a l IH]; intros s; simpl.
  - split; constructor.
  - destruct (IH (S s)) as [Hs Hf]. split.
    + constructor; [exact Hs |].
      rewrite Forall_forall in Hf |- *. intros u Hu. simpl.
      destruct (Hf u Hu) as [Hle _]. lia.
    + constructor; [simpl; split; [lia | rewrite Nat.sub_diag; reflexivity] |].
      rewrite Forall_forall in Hf |- *. intros u Hu.
      destruct (Hf u Hu) as [Hle Hfst]. split; [lia |].
      rewrite Hfst. replace (snd u - s)%nat with (S (snd u - S s)) by lia.
      reflexivity.
Qed.

Lemma sorted_enumerate_pairs (li : list Z) (key : option (Z -> Z))
  (reverse : bool) :
  map (fun i => (nth i li 0%Z, i)) (ListPy.argsort li key reverse)
  = ListPy.sorted (ListPy.pair_ltb key reverse) (ListPy.enumerate li).
Proof.
  unfold ListPy.argsort. rewrite map_map.
  assert (Hf : Forall (fun t : Z * nat => (nth (snd t) li 0%Z, snd t) = t)
                 (ListPy.sorted (ListPy.pair_ltb key reverse)
                    (ListPy.enumerate li))).
  { apply (Permutation_Forall (Permutation_sym (sorted_perm _ _))).
    destruct (combine_seq_indexed li 0) as [_ Hf].
    unfold ListPy.enumerate. rewrite Forall_forall in Hf |- *.
    intros [a i] Hin. destruct (Hf _ Hin) as [_ Hfst]. simpl in *.
    rewrite Nat.sub_0_r in Hfst. rewrite Hfst. reflexivity. }
  induction Hf as [| t l Ht Hf IH]; simpl; [reflexivity |].
  rewrite Ht, IH. reflexivity.
Qed.

Lemma StronglySorted_map {A B : Type} (R : A -> A -> Prop) (S : B -> B -> Prop)
  (f : A -> B) (l : list A) :
  (forall a b : A, R a b -> S (f a) (f b)) ->
  StronglySorted R l -> StronglySorted S (map f l).
Proof.
  intros Hf Hs. induction Hs as [| a l Hs IH Ha]; simpl; constructor;
    [exact IH |].
  rewrite List.Forall_forall in Ha. rewrite List.Forall_forall. intros b Hb.
  apply in_map_iff in Hb. destruct Hb as (b' & <- & Hb'). apply Hf, Ha, Hb'.
Qed.

(** X26.  [argsort] is a stable sort.  Listing each returned index i with
    its element li[i], every pair stands before all later pairs in the order
    used for sorting: it is smaller (by [key], by value and index without a
    key, the other way round with [reverse]) or it compares equal and has the
    smaller index.  With the default arguments the elements at the returned
    indices are in non-decreasing order. *)
Theorem argsort_sorted_stable :
  forall li : list Z,
    (forall (key : option (Z -> Z)) (reverse : bool),
        StronglySorted (stable_before key reverse)
          (map (fun i => (nth i li 0%Z, i)) (ListPy.argsort li key reverse)))
    /\ StronglySorted Z.le
         (map (fun i => nth i li 0%Z) (ListPy.argsort li None false)).
Proof.
  intros li.
  assert (Hgen : forall (key : option (Z -> Z)) (reverse : bool),
             StronglySorted (stable_before key reverse)
               (map (fun i => (nth i li 0%Z, i))
                  (ListPy.argsort li key reverse))).
  { intros key reverse. rewrite sorted_enumerate_pairs.
    apply sorted_stable. apply (combine_seq_indexed li 0). }
  split; [exact Hgen |].
  specialize (Hgen None false).
  apply (StronglySorted_map _ Z.le fst) in Hgen.
  - rewrite map_map in Hgen. exact Hgen.
  - intros t u. unfold stable_before, pair_lt. simpl. lia.
Qed.

Lemma StronglySorted_rev {A : Type} (R : A -> A -> Prop) (l : list A) :
  StronglySorted R l -> StronglySorted (fun a b => R b a) (rev l).
Proof.
  intros Hs. induction Hs as [| a l Hs IH Ha]; simpl; [constructor |].
  apply StronglySorted_app_2; [| exact IH | repeat constructor].
  intros x1 x2 H1 H2. apply list_elem_of_singleton in H2. subst x2.
  rewrite Forall_forall in Ha. apply Ha.
  apply list_elem_of_In. apply list_elem_of_In in H1. apply in_rev. exact H1.
Qed.

(** X27.  Without a key, [argsort(li, reverse=True)] is the default
    [argsort(li)] read backwards, so equal elements come with decreasing
    index; with a key, equal elements keep increasing index also when
    reversed.  For the list 1,1 the results are 1,0 without a key and 0,1
    with the identity as key. *)
Theorem argsort_reverse :
  (forall li : list Z,
      ListPy.argsort li None true = rev (ListPy.argsort li None false))
  /\ ListPy.argsort [1; 1]%Z None true = [1; 0]%nat
  /\ ListPy.argsort [1; 1]%Z (Some (fun a => a)) true = [0; 1]%nat.
Proof.
  split; [| split; reflexivity].
  intros li. unfold ListPy.argsort. rewrite <- map_rev. f_equal.
  set (E := ListPy.enumerate li).
  assert (Hidx : StronglySorted (fun t u : Z * nat => (snd t < snd u)%nat) E)
    by apply (combine_seq_indexed li 0).
  apply (StronglySorted_unique_strong (pair_lt None true)).
  - intros t u _ _ Htu Hut. exfalso. unfold pair_lt in Htu, Hut. lia.
  - pose proof (sorted_stable None true E Hidx) as Hs.
    apply (StronglySorted_map _ (pair_lt None true) (fun t => t)) in Hs.
    + rewrite map_id in Hs. exact Hs.
    + intros t u. unfold stable_before, pair_lt. lia.
  - pose proof (sorted_stable None false E Hidx) as Hs.
    apply StronglySorted_rev in Hs.
    apply (StronglySorted_map _ (pair_lt None true) (fun t => t)) in Hs.
    + rewrite map_id in Hs. exact Hs.
    + intros t u. unfold stable_before, pair_lt. lia.
  - rewrite sorted_perm, <- Permutation_rev, sorted_perm. reflexivity.
Qed.
